(** * Verification of the resumable box-score pipeline of NBADataAnalytics

    Shallow embedding of [src/GetBoxScores.py]: the season expander
    [_season_iter], the cleaning step [_clean_for_tableau], the resume logic
    and the checkpointed loop of [get_historical_boxscores].  The merge
    engine of the spec (traditional/advanced outer join) is not part of the
    sources and is modelled from the spec at the end of the definitions. *)

From Stdlib Require Import List Bool Arith Lia ZArith QArith Qround Qabs Qpower Lqa.
From Stdlib Require Import Strings.String Strings.Ascii.
From Stdlib Require Import Numbers.DecimalString Numbers.DecimalZ.
From Stdlib Require Import Sorting.Permutation Sorting.Sorted.
Import ListNotations.
Open Scope string_scope.
Open Scope list_scope.
Open Scope nat_scope.

(* ------------------------------------------------------------------ *)
(** ** Characters and decimal numbers *)

Definition is_digit (c : ascii) : bool :=
  (48 <=? nat_of_ascii c)%nat && (nat_of_ascii c <=? 57)%nat.

Definition all_digits (l : list ascii) : bool := forallb is_digit l.

Definition digit_val (c : ascii) : Z := Z.of_nat (nat_of_ascii c - 48).

(** [int(s)] on a string of ASCII digits. *)
Definition digits_val (l : list ascii) : Z :=
  fold_left (fun acc c => acc * 10 + digit_val c)%Z l 0%Z.

(** [str(n)] / [f"{n}"] on an integer. *)
Definition Z_to_string (z : Z) : string := NilZero.string_of_int (Z.to_int z).

(** [int(s)] as the inverse of [Z_to_string]. *)
Definition Z_of_string (s : string) : option Z :=
  option_map Z.of_int (NilZero.int_of_string s).

(** [f"{n:02d}"] for [0 <= n]. *)
Definition pad2 (n : Z) : string :=
  if (n <? 10)%Z then ("0" ++ Z_to_string n)%string else Z_to_string n.

Definition newline : ascii := ascii_of_nat 10.

(* ------------------------------------------------------------------ *)
(** ** [_season_iter] *)

Module Season.

(** [re.match(r"^(\d{4})-(\d{2}|\d{4})$", seasons)] over ASCII strings.
    Python's [$] also matches just before a final newline. *)
Definition end_group (rest : list ascii) : option (list ascii) :=
  match rest with
  | [e; f] => if all_digits [e; f] then Some [e; f] else None
  | [e; f; x] =>
      if all_digits [e; f] && Ascii.eqb x newline then Some [e; f] else None
  | [e; f; g; h] =>
      if all_digits [e; f; g; h] then Some [e; f; g; h] else None
  | [e; f; g; h; x] =>
      if all_digits [e; f; g; h] && Ascii.eqb x newline
      then Some [e; f; g; h] else None
  | _ => None
  end.

Definition season_match (seasons : string) : option (list ascii * list ascii) :=
  match list_ascii_of_string seasons with
  | a :: b :: c :: d :: dash :: rest =>
      if all_digits [a; b; c; d] && Ascii.eqb dash "-" then
        match end_group rest with
        | Some en => Some ([a; b; c; d], en)
        | None => None
        end
      else None
  | _ => None
  end.

(** Outcome of a call: a list of season labels or a raised [ValueError]. *)
Inductive result :=
  | Ok (out : list string)
  | ValueError (msg : string).

Definition is_error (r : result) : bool :=
  match r with ValueError _ => true | Ok _ => false end.

(** [range(a, b)] *)
Definition zrange (a b : Z) : list Z :=
  map (fun i => a + Z.of_nat i)%Z (seq 0 (Z.to_nat (b - a))).

(** [f"{y}-{(y+1) % 100:02d}"] *)
Definition label (y : Z) : string :=
  (Z_to_string y ++ "-" ++ pad2 ((y + 1) mod 100))%string.

Definition season_iter (seasons : string) : result :=
  match season_match seasons with
  | None =>
      (* the source's message quotes each pattern and example *)
      ValueError "Use YYYY-YY or YYYY-YYYY, e.g., 2025-26 or 2020-2026"
  | Some (st, en) =>
      let start := digits_val st in
      if (List.length en =? 2)%nat then
        Ok [(Z_to_string start ++ "-" ++ pad2 (digits_val en))%string]
      else
        let end_ := digits_val en in
        Ok (map label (zrange start (end_ + 1)))
  end.

End Season.

(* ------------------------------------------------------------------ *)
(** ** Tables (pandas DataFrames) *)

(** A cell of a DataFrame: text, integer, timestamp, or missing. *)
Inductive cell :=
  | CStr (s : string)
  | CNum (z : Z)
  | CDate (d : Z)
  | CNull.

Definition cell_eq_dec (a b : cell) : {a = b} + {a <> b}.
Proof. decide equality; first [apply string_dec | apply Z.eq_dec]. Defined.

Definition row := list cell.

Definition row_eq_dec : forall a b : row, {a = b} + {a <> b} :=
  list_eq_dec cell_eq_dec.

Record table := mk_table { columns : list string; rows : list row }.

(** [r[j]] (a short row reads as missing). *)
Definition at_col (j : nat) (r : row) : cell := nth j r CNull.

(** [r[j] = f(r[j])] *)
Fixpoint upd (j : nat) (f : cell -> cell) (r : row) {struct r} : row :=
  match r with
  | [] => []
  | x :: tl =>
      match j with
      | 0 => f x :: tl
      | S j' => x :: upd j' f tl
      end
  end.

(** Python's [str.lower] on ASCII. *)
Definition lower_ascii (c : ascii) : ascii :=
  let n := nat_of_ascii c in
  if (65 <=? n)%nat && (n <=? 90)%nat then ascii_of_nat (n + 32) else c.

Definition lower (s : string) : string :=
  string_of_list_ascii (map lower_ascii (list_ascii_of_string s)).

Definition ends_with (suffix s : string) : bool :=
  let ls := list_ascii_of_string s in
  let lx := list_ascii_of_string suffix in
  (List.length lx <=? List.length ls)%nat
  && (if list_eq_dec ascii_dec (skipn (List.length ls - List.length lx) ls) lx
      then true else false).

(** [c.lower().endswith(("date", "timestamp"))] *)
Definition is_date_col (c : string) : bool :=
  ends_with "date" (lower c) || ends_with "timestamp" (lower c).

(** [df.drop_duplicates()]: keep the first occurrence of each row. *)
Fixpoint drop_dups_from (seen : list row) (l : list row) : list row :=
  match l with
  | [] => []
  | r :: l' =>
      if in_dec row_eq_dec r seen then drop_dups_from seen l'
      else r :: drop_dups_from (r :: seen) l'
  end.

Definition drop_duplicates (l : list row) : list row := drop_dups_from [] l.

(** Apply [step j] for every column position [j] whose name passes [sel]. *)
Definition for_columns (cols : list string) (sel : string -> bool)
    (step : nat -> list row -> list row) (rs : list row) : list row :=
  fold_left (fun acc j => if sel (nth j cols "") then step j acc else acc)
    (seq 0 (List.length cols)) rs.

(** ** [_clean_for_tableau] *)

Section Clean.

(** [str(ts)] of a pandas timestamp, and pandas' string-to-timestamp
    parser ([None]: unparsable; [Some None]: [NaT]).  Every statement
    below holds for all such functions. *)
Variable show_date : Z -> string.
Variable parse_date : string -> option (option Z).

(** [Series.astype(str)] on one cell. *)
Definition astype_str (c : cell) : cell :=
  match c with
  | CStr s => CStr s
  | CNum z => CStr (Z_to_string z)
  | CDate d => CStr (show_date d)
  | CNull => CStr "nan"
  end.

(** [pd.to_datetime] on one cell; [None] when it raises. *)
Definition to_datetime_cell (c : cell) : option cell :=
  match c with
  | CStr s =>
      match parse_date s with
      | None => None
      | Some None => Some CNull
      | Some (Some d) => Some (CDate d)
      end
  | CNum z => Some (CDate z)
  | CDate d => Some (CDate d)
  | CNull => Some CNull
  end.

Definition to_datetime_or_keep (c : cell) : cell :=
  match to_datetime_cell c with Some c' => c' | None => c end.

(** [out[col] = pd.to_datetime(out[col], errors="ignore")]: the whole
    column is converted, or left as it is when one cell fails. *)
Definition to_datetime_col (j : nat) (rs : list row) : list row :=
  if forallb (fun r => if to_datetime_cell (at_col j r) then true else false) rs
  then map (upd j to_datetime_or_keep) rs
  else rs.

(** [out["gameId"] = out["gameId"].astype(str)] *)
Definition gameid_to_str (cols : list string) (rs : list row) : list row :=
  for_columns cols (fun c => String.eqb c "gameId")
    (fun j acc => map (upd j astype_str) acc) rs.

Definition parse_date_cols (cols : list string) (rs : list row) : list row :=
  for_columns cols is_date_col to_datetime_col rs.

(** The two normalising passes of [_clean_for_tableau]. *)
Definition normalize (t : table) : table :=
  mk_table (columns t)
    (parse_date_cols (columns t) (gameid_to_str (columns t) (rows t))).

Definition clean_for_tableau (t : table) : table :=
  let out := normalize t in
  mk_table (columns out) (drop_duplicates (rows out)).

End Clean.

(** Invariants of the normalising passes: every [gameId] column already
    holds text, and every date-like column is either fully parsed or holds
    a value the parser rejects. *)
Definition gid_fixed (show_date : Z -> string) (cols : list string)
    (rs : list row) : Prop :=
  forall j, String.eqb (nth j cols ""%string) "gameId" = true ->
    forall r, In r rs -> upd j (astype_str show_date) r = r.

Definition date_settled (parse_date : string -> option (option Z)) (j : nat)
    (rs : list row) : Prop :=
  (forall r, In r rs ->
     to_datetime_cell parse_date (at_col j r) = Some (at_col j r)) \/
  (exists r, In r rs /\ to_datetime_cell parse_date (at_col j r) = None).

(** Value of the key columns [keys] of a row of a table with [cols]. *)
Definition index_of (c : string) (cols : list string) : nat :=
  let fix go (l : list string) (i : nat) :=
    match l with
    | [] => i
    | x :: l' => if String.eqb x c then i else go l' (S i)
    end in
  go cols 0.

Definition row_key (keys cols : list string) (r : row) : list cell :=
  map (fun k => at_col (index_of k cols) r) keys.

(* ------------------------------------------------------------------ *)
(** ** Reading the existing output and resuming *)

(** Python's [str.strip()] on ASCII: [\t \n \v \f \r], [\x1c]-[\x1f] and
    space are whitespace. *)
Definition is_space (c : ascii) : bool :=
  let n := nat_of_ascii c in
  ((9 <=? n) && (n <=? 13)) || ((28 <=? n) && (n <=? 32)).

Definition strip (s : string) : string :=
  let drop := fix drop (l : list ascii) :=
    match l with
    | c :: l' => if is_space c then drop l' else l
    | [] => []
    end in
  string_of_list_ascii (rev (drop (rev (drop (list_ascii_of_string s))))).

Definition mem (x : string) (l : list string) : bool :=
  existsb (String.eqb x) l.

(** [list.index] (called only when the element is present). *)
Definition list_index (x : string) (l : list string) : nat := index_of x l.

(** [df.rename(columns={old: new})] *)
Definition rename_col (old new : string) (t : table) : table :=
  mk_table (map (fun c => if String.eqb c old then new else c) (columns t))
    (rows t).

(** The key-spelling loop shared by [_read_existing_csv] and the fetch
    loop: if [gameId] is absent, rename the first of [GAME_ID], [game_id],
    [Game_ID] that is present. *)
Definition normalize_key_name (t : table) : table :=
  if mem "gameId" (columns t) then t
  else
    let fix go (cands : list string) :=
      match cands with
      | [] => t
      | c :: cs => if mem c (columns t) then rename_col c "gameId" t else go cs
      end in
    go ["GAME_ID"; "game_id"; "Game_ID"].

Section Pipeline.

Variable show_date : Z -> string.
Variable parse_date : string -> option (option Z).

Definition clean := clean_for_tableau show_date parse_date.

(** [_read_existing_csv(path, key_col="gameId")]: [existing] is the table
    [pd.read_csv] returns, [None] when the file does not exist.  [None] as
    a result is the [KeyError] raised when no key column can be found. *)
Definition read_existing_csv (existing : option table) : option table :=
  match existing with
  | None => Some (mk_table ["gameId"] [])
  | Some df =>
      let df := normalize_key_name df in
      if mem "gameId" (columns df)
      then Some (mk_table (columns df) (gameid_to_str show_date (columns df) (rows df)))
      else None
  end.

Definition cell_text (c : cell) : string :=
  match astype_str show_date c with CStr s => s | _ => ""%string end.

(** [set(all_data["gameId"].astype(str)) if not all_data.empty else set()] *)
Definition done_ids (all_data : table) : list string :=
  match columns all_data, rows all_data with
  | [], _ | _, [] => []
  | cols, rs => map (fun r => cell_text (at_col (index_of "gameId" cols) r)) rs
  end.

End Pipeline.

(** [remaining] after the filter on [done_ids] and the marker resume;
    [marker] is the content of the marker file ([None]: no file, or it
    could not be read). *)
Definition resume_remaining (game_ids done : list string) (marker : option string)
  : list string :=
  let remaining := filter (fun gid => negb (mem gid done)) game_ids in
  match marker with
  | None => remaining
  | Some contents =>
      let last_gid := strip contents in
      if mem last_gid remaining
      then skipn (list_index last_gid remaining) remaining
      else remaining
  end.

(* ------------------------------------------------------------------ *)
(** ** The request delay

    A Python float is modelled by its exact value, a rational; every float
    operation rounds its exact result to binary64 as CPython does. *)

(** [2 ^ e] for any integer [e]. *)
Definition pow2 (e : Z) : Q := Qpower (2 # 1) e.

(** The binade of [x <> 0]: the [e] with [2 ^ (e - 1) <= |x| < 2 ^ e]. *)
Definition mag (x : Q) : Z :=
  let y := Qred (Qabs x) in
  let e0 := (Z.log2 (Qnum y) - Z.log2 (Zpos (Qden y)))%Z in
  if Qle_bool (pow2 e0) y then (e0 + 1)%Z else e0.

(** The nearest integer, ties to even. *)
Definition round_half_even (y : Q) : Z :=
  let f := Qfloor y in
  let r := (y - inject_Z f)%Q in
  if Qlt_le_dec (1 # 2) r then (f + 1)%Z
  else if Qeq_dec r (1 # 2) then (if Z.even f then f else f + 1)%Z
  else f.

(** The weight of the last significand bit of a binary64 value near [x]:
    53-bit significands, subnormals below [2 ^ -1022]. *)
Definition fexp (x : Q) : Z := Z.max (mag x - 53) (-1074).

(** Rounding to the nearest binary64 value, ties to even: the result of a
    float operation and of reading a float literal.  Overflow to infinity
    is not modelled: the one product that could overflow,
    [time_buffer * 1.5], goes through [min(..., 10.0)] next, which gives
    [10.0] for an infinite and for a huge finite product alike. *)
Definition to_double (x : Q) : Q :=
  let f := fexp x in
  (inject_Z (round_half_even (x / pow2 f)) * pow2 f)%Q.

(** The finite binary64 values. *)
Definition is_float (x : Q) : Prop :=
  exists m e, (Z.abs m < 2 ^ 53)%Z /\ (-1074 <= e <= 971)%Z /\ (x == inject_Z m * pow2 e)%Q.

(** Python's [round(x, 2)] on a float: CPython rounds the exact value of
    [x] to two decimals, ties to even ([_Py_dg_dtoa] in mode 3), then reads
    the decimal result back as the nearest float. *)
Definition round2_num (x : Q) : Z := round_half_even (x * 100).

Definition round2 (x : Q) : Q := to_double (Qmake (round2_num x) 100).

(** Python's [min(a, b)] and [max(a, b)]. *)
Definition py_min (a b : Q) : Q := if Qlt_le_dec b a then b else a.
Definition py_max (a b : Q) : Q := if Qlt_le_dec a b then b else a.

(** The float literal [0.01]. *)
Definition lit_0_01 : Q := to_double (1 # 100).

(** [if time_buffer < 0.01: time_buffer = 0.01] *)
Definition clamp_buffer (tb : Q) : Q :=
  if Qlt_le_dec tb lit_0_01 then lit_0_01 else tb.

(** [round(min(time_buffer * 1.5, 10.0), 2)]; the literals [1.5] and
    [10.0] are exact. *)
Definition backoff (tb : Q) : Q := round2 (py_min (to_double (tb * (3 # 2))) 10).

(** [max(30.0, time_buffer)] *)
Definition pause (tb : Q) : Q := py_max 30 tb.

(* ------------------------------------------------------------------ *)
(** ** The fetch loop of [get_historical_boxscores] *)

(** Observable effects of the loop, in order.  [EFetch gid r] is one call
    to the box-score endpoint with the table it yielded after the key
    normalisation ([None]: an exception was raised); console output is
    not modelled. *)
Inductive event :=
  | EFetch (gid : string) (r : option table)
  | ESleep (secs : Q)
  | EWriteCsv (t : table)
  | EWriteMarker (gid : string).

(** [pd.concat([a, b], ignore_index=True)]: the columns of [a], then the
    new columns of [b]; missing cells are [NaN]. *)
Definition concat_tables (a b : table) : table :=
  let extra := filter (fun c => negb (mem c (columns a))) (columns b) in
  let cols := columns a ++ extra in
  mk_table cols
    (map (fun r => r ++ repeat CNull (List.length extra)) (rows a) ++
     map (fun r => map (fun c => if mem c (columns b)
                                 then at_col (index_of c (columns b)) r
                                 else CNull) cols) (rows b)).

Section Loop.

Variable show_date : Z -> string.
Variable parse_date : string -> option (option Z).

(** The remote endpoint: the list of tables of [BoxScore...V3(game_id=gid)
    .get_data_frames()], or [None] when the call raises. *)
Variable endpoint : string -> option (list table).
(** [1 if team else 0] *)
Variable df_index : nat.

(** The fetch and key normalisation inside the [try] block. *)
Definition fetch_table (gid : string) : option table :=
  match endpoint gid with
  | None => None
  | Some dfs =>
      match nth_error dfs df_index with
      | None => None
      | Some df =>
          let df := normalize_key_name df in
          Some (mk_table (columns df) (gameid_to_str show_date (columns df) (rows df)))
      end
  end.

(** [(i % 100 == 0) or (i == len(remaining))] *)
Definition checkpoint_due (i n : nat) : bool := (i mod 100 =? 0) || (i =? n).

(** One iteration, [i] counting from 1, over [n] remaining ids; the state
    is [(all_data, time_buffer)]. *)
Definition step (i n : nat) (gid : string) (st : table * Q)
  : list event * (table * Q) :=
  let '(all_data, tb) := st in
  match fetch_table gid with
  | Some df =>
      let all_data' := concat_tables all_data df in
      ([EFetch gid (Some df); ESleep tb] ++
       (if checkpoint_due i n
        then [EWriteCsv (clean show_date parse_date all_data'); EWriteMarker gid]
        else []),
       (all_data', tb))
  | None =>
      let tb' := backoff tb in
      ([EFetch gid None; EWriteCsv (clean show_date parse_date all_data);
        EWriteMarker gid; ESleep (pause tb')],
       (all_data, tb'))
  end.

(** [for i, gid in enumerate(remaining, 1): ...] *)
Fixpoint loop (i n : nat) (l : list string) (st : table * Q)
  : list event * (table * Q) :=
  match l with
  | [] => ([], st)
  | gid :: l' =>
      let '(ev, st') := step i n gid st in
      let '(ev', st'') := loop (S i) n l' st' in
      (ev ++ ev', st'')
  end.

(** [get_historical_boxscores]: [existing] is the parsed output CSV, if
    any; [marker] the marker file's content, if any.  [None] is the
    [KeyError] of [_read_existing_csv]. *)
Definition run (game_ids : list string) (existing : option table)
    (marker : option string) (time_buffer : Q) : option (list event) :=
  match read_existing_csv show_date existing with
  | None => None
  | Some all_data =>
      let tb := clamp_buffer time_buffer in
      let remaining :=
        resume_remaining game_ids (done_ids show_date all_data) marker in
      let '(ev, (final, _)) := loop 1 (List.length remaining) remaining (all_data, tb) in
      Some (ev ++ [EWriteCsv (clean show_date parse_date final)])
  end.

End Loop.

(* ------------------------------------------------------------------ *)
(** ** The files written by the loop *)

(** [to_csv(path, index=False)] truncates the file, then writes the header
    and one line per row; [open(path, "w").write(s)] truncates, then
    writes.  A crash can stop the process between any two of these file
    operations. *)
Inductive csv_line := Header (cols : list string) | Line (r : row).

Inductive fs_op :=
  | OTruncCsv
  | OAppendCsv (l : csv_line)
  | OTruncMarker
  | OAppendMarker (s : string).

Record files := mk_files { csv_file : list csv_line; marker_file : string }.

Definition csv_lines (t : table) : list csv_line :=
  Header (columns t) :: map Line (rows t).

Definition ops_of_event (e : event) : list fs_op :=
  match e with
  | EWriteCsv t => OTruncCsv :: map OAppendCsv (csv_lines t)
  | EWriteMarker gid => [OTruncMarker; OAppendMarker gid]
  | _ => []
  end.

Definition apply_op (f : files) (o : fs_op) : files :=
  match o with
  | OTruncCsv => mk_files [] (marker_file f)
  | OAppendCsv l => mk_files (csv_file f ++ [l]) (marker_file f)
  | OTruncMarker => mk_files (csv_file f) ""
  | OAppendMarker s => mk_files (csv_file f) (marker_file f ++ s)%string
  end.

Definition apply_ops (f : files) (os : list fs_op) : files :=
  fold_left apply_op os f.

(** The files after the first [k] file operations of a trace. *)
Definition crash_after (f0 : files) (evs : list event) (k : nat) : files :=
  apply_ops f0 (firstn k (flat_map ops_of_event evs)).

(** The table of the most recent [EWriteCsv] of a trace. *)
Definition last_persist (evs : list event) : option table :=
  fold_left (fun acc e => match e with EWriteCsv t => Some t | _ => acc end)
    evs None.

(** The accumulation of [prior] and of every table fetched in a trace. *)
Definition accumulated (prior : table) (evs : list event) : table :=
  fold_left (fun acc e => match e with
                          | EFetch _ (Some df) => concat_tables acc df
                          | _ => acc
                          end) evs prior.

(** The ids fetched in a trace, and the pauses taken, in order. *)
Definition fetched_ids (evs : list event) : list string :=
  flat_map (fun e => match e with EFetch gid _ => [gid] | _ => [] end) evs.

Definition sleeps (evs : list event) : list Q :=
  flat_map (fun e => match e with ESleep d => [d] | _ => [] end) evs.

(** Trace properties: [P prior pre x] is asked of every event [x] of a
    trace, with [pre] the events before it. *)
Definition trace_ok (P : table -> list event -> event -> Prop) (prior : table)
    (evs : list event) : Prop :=
  forall pre x post, evs = pre ++ x :: post -> P prior pre x.

(** Every CSV write persists the cleaned accumulation of everything before
    it; every marker write follows the CSV write of the game it names,
    which was either just fetched (its table included) or just failed. *)
Definition event_ok (show_date : Z -> string) (parse_date : string -> option (option Z))
    (prior : table) (pre : list event) (x : event) : Prop :=
  match x with
  | EWriteCsv t => t = clean show_date parse_date (accumulated prior pre)
  | EWriteMarker m =>
      (exists pre' df d, pre = pre' ++
         [EFetch m (Some df); ESleep d;
          EWriteCsv (clean show_date parse_date
                       (concat_tables (accumulated prior pre') df))]) \/
      (exists pre', pre = pre' ++
         [EFetch m None;
          EWriteCsv (clean show_date parse_date (accumulated prior pre'))])
  | _ => True
  end.

(* ------------------------------------------------------------------ *)
(** ** Merging traditional and advanced box scores *)

(** Modelled from the spec: the MergeEngine of §4.2, which combines the
    traditional and the advanced dataset of a game, is not among the
    source files.  Following the spec's words: the non-key columns present
    in both datasets are suffixed with the source mode (the mode labels
    [trad] and [adv] of [get_historical_boxscores]), then the two datasets
    are outer-joined on the key columns.  The output columns are the keys,
    the traditional non-key columns and the advanced non-key columns; a
    row found in one dataset only has its other side filled with NaN. *)
Definition nonkey_cols (keys : list string) (t : table) : list string :=
  filter (fun c => negb (mem c keys)) (columns t).

Definition shared_nonkey (keys : list string) (a b : table) : list string :=
  filter (fun c => mem c (columns b)) (nonkey_cols keys a).

Definition suffix_col (shared : list string) (sfx c : string) : string :=
  if mem c shared then (c ++ sfx)%string else c.

Definition key_eqb (k1 k2 : list cell) : bool :=
  if list_eq_dec cell_eq_dec k1 k2 then true else false.

(** Modelled from the spec: the outer join of the MergeEngine (see
    [nonkey_cols]). *)
Definition merge_boxscores (keys : list string) (trad adv : table) : table :=
  let shared := shared_nonkey keys trad adv in
  let tn := nonkey_cols keys trad in
  let an := nonkey_cols keys adv in
  let cols := keys ++ map (suffix_col shared "_trad") tn
                   ++ map (suffix_col shared "_adv") an in
  let tk := row_key keys (columns trad) in
  let ak := row_key keys (columns adv) in
  let tv := row_key tn (columns trad) in
  let av := row_key an (columns adv) in
  let left :=
    flat_map (fun r =>
      match filter (fun s => key_eqb (ak s) (tk r)) (rows adv) with
      | [] => [tk r ++ tv r ++ repeat CNull (List.length an)]
      | ms => map (fun s => tk r ++ tv r ++ av s) ms
      end) (rows trad) in
  let right :=
    map (fun s => ak s ++ repeat CNull (List.length tn) ++ av s)
      (filter (fun s => negb (existsb (fun r => key_eqb (ak s) (tk r)) (rows trad)))
         (rows adv)) in
  mk_table cols (left ++ right).

(** The union of two key lists, in order of first appearance of the
    second list after the first. *)
Definition key_union (k1 k2 : list (list cell)) : list (list cell) :=
  k1 ++ filter (fun k => negb (existsb (key_eqb k) k1)) k2.

(* ------------------------------------------------------------------ *)
(** ** [get_game_ids] *)

(** [Series.unique()]: every value at its first occurrence, in order. *)
Fixpoint unique_from (seen : list string) (l : list string) : list string :=
  match l with
  | [] => []
  | x :: l' => if mem x seen then unique_from seen l' else x :: unique_from (x :: seen) l'
  end.

(** [games["GAME_ID"].astype(str).unique().tolist()].  [None] is the
    [KeyError] of a missing column, or the failure when the name is
    duplicated ([games["GAME_ID"]] is then a DataFrame, which has no
    [unique]). *)
Definition get_game_ids (show_date : Z -> string) (games : table) : option (list string) :=
  if (count_occ string_dec (columns games) "GAME_ID" =? 1)%nat
  then Some (unique_from []
               (map (fun r => cell_text show_date (at_col (index_of "GAME_ID" (columns games)) r))
                  (rows games)))
  else None.

(* ------------------------------------------------------------------ *)
(** ** [get_games] *)

Definition keep_first : list string :=
  ["SEASON_ID"; "TEAM_ID"; "TEAM_ABBREVIATION"; "TEAM_NAME"; "GAME_ID";
   "GAME_DATE"; "MATCHUP"; "WL"; "PTS"].

(** [df[cs]]: the columns [cs], selected by name. *)
Definition select_cols (cs : list string) (t : table) : table :=
  mk_table cs (map (fun r => map (fun c => at_col (index_of c (columns t)) r) cs) (rows t)).

(** [existing = [c for c in keep_first if c in games.columns]]
    [games[existing + [c for c in games.columns if c not in existing]]] *)
Definition reorder_games (games : table) : table :=
  let existing := filter (fun c => mem c (columns games)) keep_first in
  select_cols (existing ++ filter (fun c => negb (mem c existing)) (columns games)) games.

(** [df[name] = f(df[name])]; [None] is the [KeyError] of reading a
    missing column. *)
Definition set_column (name : string) (f : cell -> cell) (t : table) : option table :=
  if mem name (columns t)
  then Some (mk_table (columns t) (map (upd (index_of name (columns t)) f) (rows t)))
  else None.

(** [pd.concat(frames, ignore_index=True)] *)
Definition concat_all (gs : list table) : table :=
  match gs with
  | [] => mk_table [] []
  | g :: gs' => fold_left concat_tables gs' g
  end.

Section Games.

Variable show_date : Z -> string.
(** [pd.to_datetime(x, errors="coerce")] on one cell. *)
Variable coerce_date : cell -> cell.
(** [LeagueGameFinder(season_nullable=s, ...).get_data_frames()[0]];
    [None] when the call raises. *)
Variable finder : string -> option table.

(** [g["GAME_DATE"] = pd.to_datetime(g["GAME_DATE"], errors="coerce")]
    [g["GAME_ID"] = g["GAME_ID"].astype(str)] *)
Definition prepare_season (g : table) : option table :=
  match set_column "GAME_DATE" coerce_date g with
  | None => None
  | Some g => set_column "GAME_ID" (astype_str show_date) g
  end.

(** The loop over the seasons; [None]: the first exception raised. *)
Fixpoint fetch_seasons (ss : list string) : option (list table) :=
  match ss with
  | [] => Some []
  | s :: ss' =>
      match finder s with
      | None => None
      | Some g =>
          match prepare_season g with
          | None => None
          | Some g' => option_map (cons g') (fetch_seasons ss')
          end
      end
  end.

(** [get_games(seasons, ...)]; [None]: an exception ([ValueError] of the
    season expander, or one raised while fetching). *)
Definition get_games (seasons : string) : option table :=
  match Season.season_iter seasons with
  | Season.ValueError _ => None
  | Season.Ok ss =>
      match fetch_seasons ss with
      | None => None
      | Some [] => Some (mk_table [] [])
      | Some gs => Some (reorder_games (concat_all gs))
      end
  end.

End Games.

(* ------------------------------------------------------------------ *)
(** ** [add_game_number] *)

(** Ascending order of one sort key with [NaN] last.  Values of one kind
    compare as pandas does; values of different kinds (which pandas' sort
    rejects or orders by kind) are ordered by kind. *)
Definition cell_rank (c : cell) : nat :=
  match c with CNum _ => 0 | CDate _ => 1 | CStr _ => 2 | CNull => 3 end.

Definition cell_cmp (a b : cell) : comparison :=
  match a, b with
  | CNum x, CNum y => Z.compare x y
  | CDate x, CDate y => Z.compare x y
  | CStr x, CStr y => String.compare x y
  | _, _ => Nat.compare (cell_rank a) (cell_rank b)
  end.

Fixpoint lex_cmp (k1 k2 : list cell) : comparison :=
  match k1, k2 with
  | a :: k1', b :: k2' =>
      match cell_cmp a b with Eq => lex_cmp k1' k2' | c => c end
  | _, _ => Eq
  end.

(** [df.sort_values([...])] on several columns sorts with a stable
    lexicographic sort ([np.lexsort]): a stable insertion sort. *)
Fixpoint insert_by (key : row -> list cell) (r : row) (l : list row) : list row :=
  match l with
  | [] => [r]
  | x :: l' =>
      match lex_cmp (key r) (key x) with
      | Gt => x :: insert_by key r l'
      | _ => r :: x :: l'
      end
  end.

Definition sort_by (key : row -> list cell) (l : list row) : list row :=
  fold_right (insert_by key) [] l.

Definition key_dec := list_eq_dec cell_eq_dec.

(** [grp.cumcount()] in row order: how many earlier rows share the key. *)
Fixpoint cumcounts (seen : list (list cell)) (ks : list (list cell)) : list nat :=
  match ks with
  | [] => []
  | k :: ks' => count_occ key_dec seen k :: cumcounts (k :: seen) ks'
  end.

Definition is_null (c : cell) : bool := match c with CNull => true | _ => false end.

(** [GAME_NUMBER = base + cumcount + 1] and
    [GAME_NUMBER_REV = base + size - cumcount] for each row; a row whose
    group key has a [NaN] is dropped by [groupby], and gets [NaN]. *)
Definition game_numbers (base : Z) (ks : list (list cell)) : list (cell * cell) :=
  map (fun kc =>
         let '(k, c) := kc in
         if existsb is_null k then (CNull, CNull)
         else (CNum (base + Z.of_nat c + 1)%Z,
               CNum (base + Z.of_nat (count_occ key_dec ks k) - Z.of_nat c)%Z))
    (combine ks (cumcounts [] ks)).

(** [df[name] = values]: replaces the column, or appends it. *)
Definition put_column (name : string) (vals : list cell) (t : table) : table :=
  if mem name (columns t)
  then mk_table (columns t)
         (map (fun rv => upd (index_of name (columns t)) (fun _ => snd rv) (fst rv))
            (combine (rows t) vals))
  else mk_table (columns t ++ [name])
         (map (fun rv => fst rv ++ [snd rv]) (combine (rows t) vals)).

Definition sort_key (cols : list string) : row -> list cell :=
  row_key ["TEAM_ID"; "SEASON_ID"; "GAME_DATE"] cols.

Definition group_key (cols : list string) : row -> list cell :=
  row_key ["TEAM_ID"; "SEASON_ID"] cols.

Section GameNumber.

Variable coerce_date : cell -> cell.

(** [add_game_number(games, playoffs)]; [None]: the [KeyError] of a
    missing column. *)
Definition add_game_number (games : table) (playoffs : bool) : option table :=
  if (List.length (rows games) =? 0) || (List.length (columns games) =? 0)
  then Some games
  else
    match set_column "GAME_DATE" coerce_date games with
    | None => None
    | Some df =>
        let cols := columns df in
        if mem "TEAM_ID" cols && mem "SEASON_ID" cols then
          let rs := sort_by (sort_key cols) (rows df) in
          let nums := game_numbers (if playoffs then 82 else 0)%Z
                        (map (group_key cols) rs) in
          Some (put_column "GAME_NUMBER_REV" (map snd nums)
                  (put_column "GAME_NUMBER" (map fst nums) (mk_table cols rs)))
        else None
    end.

End GameNumber.

(* ------------------------------------------------------------------ *)
(** ** Output paths *)

(** Python's [str.rfind] of one character: the last index, if any. *)
Fixpoint rfind_go (c : ascii) (l : list ascii) (i : nat) (acc : option nat) : option nat :=
  match l with
  | [] => acc
  | x :: l' => rfind_go c l' (S i) (if ascii_dec x c then Some i else acc)
  end.

Definition rfind (c : ascii) (l : list ascii) : option nat := rfind_go c l 0 None.

Definition slash : ascii := "/".
Definition dot : ascii := ".".

(** [os.path.join(a, b)] (POSIX). *)
Definition py_join (a b : string) : string :=
  match list_ascii_of_string b with
  | c :: _ => if ascii_dec c slash then b
              else if String.eqb a "" || ends_with "/" a then (a ++ b)%string
              else (a ++ "/" ++ b)%string
  | [] => if String.eqb a "" || ends_with "/" a then (a ++ b)%string
          else (a ++ "/" ++ b)%string
  end.

(** [os.path.basename(p)] *)
Definition basename (p : string) : string :=
  let l := list_ascii_of_string p in
  string_of_list_ascii
    (match rfind slash l with None => l | Some i => skipn (S i) l end).

(** [os.path.dirname(p)] *)
Definition dirname (p : string) : string :=
  let l := list_ascii_of_string p in
  let head := match rfind slash l with None => [] | Some i => firstn (S i) l end in
  let rstrip := fix rstrip (r : list ascii) :=
    match r with
    | c :: r' => if ascii_dec c slash then rstrip r' else r
    | [] => []
    end in
  string_of_list_ascii
    (if negb (forallb (fun c => if ascii_dec c slash then true else false) head)
     then rev (rstrip (rev head)) else head).

(** [os.path.splitext(p)] (POSIX): split at the last dot after the last
    slash, unless every character before it in the last component is a
    dot. *)
Definition splitext (p : string) : string * string :=
  let l := list_ascii_of_string p in
  let start := match rfind slash l with None => 0 | Some s => S s end in
  match rfind dot l with
  | Some d =>
      if (start <=? d) &&
         existsb (fun c => if ascii_dec c dot then false else true)
           (firstn (d - start) (skipn start l))
      then (string_of_list_ascii (firstn d l), string_of_list_ascii (skipn d l))
      else (p, "")
  | None => (p, "")
  end.

Definition mode_label (advanced : bool) : string := if advanced then "adv" else "trad".
Definition team_label (team : bool) : string := if team then "team" else "player".
Definition p_label (playoffs : bool) : string := if playoffs then "_playoffs" else "".

(** [out_path] and [last_id_path] of [get_historical_boxscores]. *)
Definition out_path (out_dir season_token : string) (playoffs advanced team : bool) : string :=
  py_join out_dir (mode_label advanced ++ "_boxscores_" ++ season_token ++ "_"
                   ++ team_label team ++ p_label playoffs ++ ".csv").

Definition last_id_path (out_dir season_token : string) (playoffs team : bool) : string :=
  py_join out_dir ("last_game_id_" ++ season_token ++ "_" ++ team_label team
                   ++ p_label playoffs ++ ".txt").

(** The output CSV written (and returned) by [update_boxscores(game_ids,
    out_csv, advanced=..., team=...)]: [get_historical_boxscores] with
    [season_token = os.path.splitext(os.path.basename(out_csv))[0]],
    [out_dir = os.path.dirname(out_csv) or "."] and [playoffs=False]. *)
Definition update_out_path (out_csv : string) (advanced team : bool) : string :=
  let season_token := fst (splitext (basename out_csv)) in
  let d := dirname out_csv in
  let out_dir := if String.eqb d "" then "." else d in
  out_path out_dir season_token false advanced team.

(** The marker file of the same call: [last_id_path] of
    [get_historical_boxscores] with the same [out_dir], [season_token] and
    [playoffs=False]. *)
Definition update_marker_path (out_csv : string) (team : bool) : string :=
  let season_token := fst (splitext (basename out_csv)) in
  let d := dirname out_csv in
  let out_dir := if String.eqb d "" then "." else d in
  last_id_path out_dir season_token false team.

(** The ids named by the marker writes of a trace, in order. *)
Definition marker_ids (evs : list event) : list string :=
  flat_map (fun e => match e with EWriteMarker g => [g] | _ => [] end) evs.

(** Every row has one cell per column. *)
Definition well_formed (t : table) : Prop :=
  Forall (fun r => List.length r = List.length (columns t)) (rows t).

(** The ids at the positions [i] (from 1) of [l] where a checkpoint is due. *)
Definition checkpoint_ids (i n : nat) (l : list string) : list string :=
  map snd (filter (fun p => checkpoint_due (fst p) n) (combine (seq i (List.length l)) l)).

(* ================================================================== *)
(** * Properties *)

(** ** Decimal helpers *)

Lemma Z_of_string_to_string (z : Z) : Z_of_string (Z_to_string z) = Some z.
Proof.
  unfold Z_of_string, Z_to_string.
  rewrite NilZero.isi; [simpl; now rewrite DecimalZ.of_to | |].
  - intro H. pose proof (DecimalZ.of_to z) as E. rewrite H in E.
    simpl in E. subst z. discriminate H.
  - intro H. pose proof (DecimalZ.of_to z) as E. rewrite H in E.
    simpl in E. subst z. discriminate H.
Qed.

Definition pad2_ok (n : Z) : bool :=
  (List.length (list_ascii_of_string (pad2 n)) =? 2)
  && Z.eqb (digits_val (list_ascii_of_string (pad2 n))) n.

Lemma pad2_ok_below_100 :
  forallb (fun k => pad2_ok (Z.of_nat k)) (seq 0 100) = true.
Proof. vm_compute. reflexivity. Qed.

Lemma pad2_digits (n : Z) :
  (0 <= n < 100)%Z ->
  List.length (list_ascii_of_string (pad2 n)) = 2 /\
  digits_val (list_ascii_of_string (pad2 n)) = n.
Proof.
  intros Hn.
  assert (Hin : In (Z.to_nat n) (seq 0 100)) by (apply in_seq; lia).
  pose proof (proj1 (forallb_forall _ _) pad2_ok_below_100 _ Hin) as H.
  cbv beta in H. rewrite Z2Nat.id in H by lia.
  unfold pad2_ok in H. apply andb_prop in H as [H1 H2].
  apply Nat.eqb_eq in H1. apply Z.eqb_eq in H2. auto.
Qed.

Lemma nth_map_zrange (a b : Z) (i : nat) (f : Z -> string) :
  i < List.length (map f (Season.zrange a b)) ->
  nth i (map f (Season.zrange a b)) ""%string = f (a + Z.of_nat i)%Z.
Proof.
  unfold Season.zrange. rewrite !length_map, length_seq. intros Hi.
  rewrite map_map.
  rewrite nth_indep with (d' := (fun x => f (a + Z.of_nat x)%Z) 0)
    by (rewrite length_map, length_seq; exact Hi).
  rewrite (map_nth (fun x => f (a + Z.of_nat x)%Z)), seq_nth by exact Hi.
  reflexivity.
Qed.

(** ** Season expander *)

Module SeasonProps.
Import Season.

(** C2 (as stated): a range whose end year does not exceed its start year
    is not rejected: [_season_iter("2026-2020")] returns the empty list and
    [_season_iter("2025-2025")] returns one season. *)
Lemma season_iter_no_error_on_reversed_range :
  season_iter "2026-2020" = Ok [] /\
  season_iter "2025-2025" = Ok ["2025-26"].
Proof. split; vm_compute; reflexivity. Qed.

(** C2 (amended): [_season_iter] raises [ValueError] exactly when the token
    does not match [^(\d{4})-(\d{2}|\d{4})$]; every matching token returns
    normally; a range whose end year is below its start year returns the
    empty list, and a range whose end year equals its start year returns
    the one season of that start year. *)
Theorem season_iter_error_iff_malformed (s : string) :
  (is_error (season_iter s) = true <-> season_match s = None) /\
  (forall st en, season_match s = Some (st, en) -> List.length en = 4 ->
     (digits_val en < digits_val st)%Z -> season_iter s = Ok []) /\
  (forall st en, season_match s = Some (st, en) -> List.length en = 4 ->
     digits_val en = digits_val st -> season_iter s = Ok [label (digits_val st)]).
Proof.
  split; [|split].
  - unfold season_iter. destruct (season_match s) as [[st en]|].
    + destruct (List.length en =? 2); simpl; split; discriminate.
    + simpl; split; reflexivity.
  - intros st en Hm Hlen Hlt. unfold season_iter. rewrite Hm, Hlen. simpl.
    unfold zrange. replace (Z.to_nat (digits_val en + 1 - digits_val st)) with 0
      by lia.
    reflexivity.
  - intros st en Hm Hlen Heq. unfold season_iter. rewrite Hm, Hlen. simpl.
    unfold zrange. replace (Z.to_nat (digits_val en + 1 - digits_val st)) with 1
      by lia.
    simpl. rewrite Z.add_0_r. reflexivity.
Qed.

Lemma season_iter_error_iff_malformed_witness :
  season_match "2026-2020" = Some (["2"; "0"; "2"; "6"]%char, ["2"; "0"; "2"; "0"]%char) /\
  season_iter "2026-2020" = Ok [] /\
  season_match "2025-2025" = Some (["2"; "0"; "2"; "5"]%char, ["2"; "0"; "2"; "5"]%char) /\
  season_iter "2025-2025" = Ok [label 2025].
Proof.
  split; [vm_compute; reflexivity |].
  split.
  - apply (proj1 (proj2 (season_iter_error_iff_malformed "2026-2020"))
             ["2"; "0"; "2"; "6"]%char ["2"; "0"; "2"; "0"]%char);
      [vm_compute; reflexivity | reflexivity | vm_compute; reflexivity].
  - split; [vm_compute; reflexivity |].
    apply (proj2 (proj2 (season_iter_error_iff_malformed "2025-2025"))
             ["2"; "0"; "2"; "5"]%char ["2"; "0"; "2"; "5"]%char);
      [vm_compute; reflexivity | reflexivity | vm_compute; reflexivity].
Defined.

(** C3: on a range token [YYYY-YYYY] the expander returns one label per
    start year from the start year to the end year, in order; the [i]-th
    label is the year [start + i], a dash, and a two-digit suffix whose
    value is [(start + i + 1) mod 100]. *)
Theorem season_iter_range_labels (s : string) st en :
  season_match s = Some (st, en) -> List.length en = 4 ->
  exists out,
    season_iter s = Ok out /\
    List.length out = Z.to_nat (digits_val en + 1 - digits_val st) /\
    forall i, i < List.length out ->
      let y := (digits_val st + Z.of_nat i)%Z in
      exists e,
        nth i out ""%string = (Z_to_string y ++ "-" ++ e)%string /\
        Z_of_string (Z_to_string y) = Some y /\
        List.length (list_ascii_of_string e) = 2 /\
        digits_val (list_ascii_of_string e) = ((y + 1) mod 100)%Z.
Proof.
  intros Hm Hlen. unfold season_iter. rewrite Hm, Hlen. simpl.
  eexists; split; [reflexivity|]. split.
  - unfold zrange. now rewrite !length_map, length_seq.
  - intros i Hi. cbv zeta.
    exists (pad2 ((digits_val st + Z.of_nat i + 1) mod 100)).
    rewrite nth_map_zrange by exact Hi. unfold label.
    split; [reflexivity|]. split; [apply Z_of_string_to_string|].
    apply pad2_digits. apply Z.mod_pos_bound. lia.
Qed.

Lemma season_iter_range_labels_witness :
  exists out, season_iter "2020-2026" = Ok out /\ List.length out = 7.
Proof.
  destruct (season_iter_range_labels "2020-2026" ["2"; "0"; "2"; "0"]%char
              ["2"; "0"; "2"; "6"]%char) as [out [Hout [Hlen _]]];
    [vm_compute; reflexivity | reflexivity |].
  exists out. split; [exact Hout|]. rewrite Hlen. vm_compute. reflexivity.
Defined.

End SeasonProps.

(** ** Row and column helpers *)

Lemma upd_comm (j k : nat) (f g : cell -> cell) (r : row) :
  j <> k -> upd j f (upd k g r) = upd k g (upd j f r).
Proof.
  revert j k. induction r as [|x r IH]; intros j k Hjk; [reflexivity|].
  destruct j, k; simpl; try reflexivity; [congruence|].
  f_equal. apply IH. congruence.
Qed.

Lemma at_col_upd_other (j k : nat) (f : cell -> cell) (r : row) :
  j <> k -> at_col j (upd k f r) = at_col j r.
Proof.
  unfold at_col. revert j k. induction r as [|x r IH]; intros j k Hjk;
    [reflexivity|].
  destruct j, k; simpl; try reflexivity; [congruence|]. apply IH. congruence.
Qed.

Lemma upd_upd (j : nat) (f g : cell -> cell) (r : row) :
  upd j f (upd j g r) = upd j (fun x => f (g x)) r.
Proof.
  revert j. induction r as [|x r IH]; intros j; [reflexivity|].
  destruct j; simpl; [reflexivity|]. now rewrite IH.
Qed.

Lemma upd_fixed (j : nat) (f : cell -> cell) (r : row) :
  f (at_col j r) = at_col j r -> upd j f r = r.
Proof.
  unfold at_col. revert j. induction r as [|x r IH]; intros j H; [reflexivity|].
  destruct j; simpl in *; [now rewrite H | now rewrite IH].
Qed.

Lemma upd_ext (j : nat) (f g : cell -> cell) (r : row) :
  (forall x, f x = g x) -> upd j f r = upd j g r.
Proof.
  revert j. induction r as [|x r IH]; intros j H; [reflexivity|].
  destruct j; simpl; [now rewrite H | now rewrite IH].
Qed.

(** [at_col j (upd j f r)] is [f (at_col j r)] inside the row, and the
    missing value past its end. *)
Lemma at_col_upd_same (j : nat) (f : cell -> cell) (r : row) :
  at_col j (upd j f r) = f (at_col j r) \/
  (at_col j (upd j f r) = CNull /\ at_col j r = CNull).
Proof.
  unfold at_col. revert j. induction r as [|x r IH]; intros j.
  - right. destruct j; simpl; auto.
  - destruct j; simpl; [left; reflexivity | apply IH].
Qed.

Lemma forallb_false_ex {A} (p : A -> bool) (l : list A) :
  forallb p l = false -> exists x, In x l /\ p x = false.
Proof.
  induction l as [|a l IH]; simpl; [discriminate|].
  destruct (p a) eqn:Ha; simpl; [intros H; destruct (IH H) as [x [Hx Hp]];
    exists x; auto | intros _; exists a; auto].
Qed.

(** A fold over column positions, visiting each position once, keeps an
    invariant indexed by the positions already visited. *)
Lemma fold_left_visit_inv {A} (f : A -> nat -> A) (Inv : list nat -> A -> Prop) :
  (forall vis k acc, ~ In k vis -> Inv vis acc -> Inv (vis ++ [k]) (f acc k)) ->
  forall l vis acc, NoDup (vis ++ l) -> Inv vis acc ->
    Inv (vis ++ l) (fold_left f l acc).
Proof.
  intros Hstep l. induction l as [|k l IH]; intros vis acc Hnd Hinv; simpl.
  - now rewrite app_nil_r.
  - replace (vis ++ k :: l) with ((vis ++ [k]) ++ l) by now rewrite <- app_assoc.
    apply IH.
    + now rewrite <- app_assoc.
    + apply Hstep; [|exact Hinv].
      intro Hk. apply (NoDup_remove_2 vis l k Hnd). apply in_or_app. now left.
Qed.

Lemma for_columns_id (cols : list string) sel step (rs : list row) :
  (forall j, j < List.length cols -> sel (nth j cols ""%string) = true ->
     step j rs = rs) ->
  for_columns cols sel step rs = rs.
Proof.
  unfold for_columns. intros H.
  assert (Hgen : forall l, (forall j, In j l -> j < List.length cols) ->
            fold_left (fun acc j => if sel (nth j cols ""%string) then step j acc else acc)
              l rs = rs).
  { induction l as [|k l IH]; intros Hl; [reflexivity|]. simpl.
    destruct (sel (nth k cols ""%string)) eqn:Hs.
    - rewrite H by auto with datatypes. apply IH; auto with datatypes.
    - apply IH; auto with datatypes. }
  apply Hgen. intros j Hj. apply in_seq in Hj. lia.
Qed.

(** ** [drop_duplicates] *)

Lemma drop_dups_from_in (seen l : list row) (r : row) :
  In r (drop_dups_from seen l) <-> In r l /\ ~ In r seen.
Proof.
  revert seen. induction l as [|x l IH]; intros seen; simpl; [tauto|].
  destruct (in_dec row_eq_dec x seen) as [Hx|Hx].
  - rewrite IH. split; [tauto|]. intros [[<-|H] Hn]; [contradiction|auto].
  - simpl. rewrite IH. simpl. split.
    + intros [<-|[H1 H2]]; auto.
    + intros [[<-|H1] H2]; [now left|].
      destruct (row_eq_dec x r) as [->|Hne]; [now left|].
      right. split; [exact H1|]. intros [E|E]; [congruence|contradiction].
Qed.

Lemma drop_dups_from_nodup (seen l : list row) : NoDup (drop_dups_from seen l).
Proof.
  revert seen. induction l as [|x l IH]; intros seen; simpl; [constructor|].
  destruct (in_dec row_eq_dec x seen); [apply IH|].
  constructor; [|apply IH]. rewrite drop_dups_from_in. simpl. tauto.
Qed.

Lemma drop_dups_from_nodup_id (seen l : list row) :
  NoDup l -> (forall r, In r l -> ~ In r seen) -> drop_dups_from seen l = l.
Proof.
  revert seen. induction l as [|x l IH]; intros seen Hnd Hs; simpl; [reflexivity|].
  inversion Hnd as [|? ? Hx Hnd']; subst.
  destruct (in_dec row_eq_dec x seen) as [Hin|Hin].
  - exfalso. exact (Hs x (or_introl eq_refl) Hin).
  - f_equal. apply IH; [exact Hnd'|]. intros r Hr [E|E].
    + subst. contradiction.
    + exact (Hs r (or_intror Hr) E).
Qed.

Lemma drop_duplicates_in (l : list row) (r : row) :
  In r (drop_duplicates l) <-> In r l.
Proof. unfold drop_duplicates. rewrite drop_dups_from_in. simpl. tauto. Qed.

Lemma drop_duplicates_idem (l : list row) :
  drop_duplicates (drop_duplicates l) = drop_duplicates l.
Proof.
  unfold drop_duplicates at 1. apply drop_dups_from_nodup_id;
    [apply drop_dups_from_nodup | intros r _ []].
Qed.

(** ** [_clean_for_tableau] *)

Section CleanProps.

Variable show_date : Z -> string.
Variable parse_date : string -> option (option Z).

Local Abbreviation astr := (astype_str show_date).
Local Abbreviation conv := (to_datetime_cell parse_date).
Local Abbreviation cok := (to_datetime_or_keep parse_date).

Lemma astype_str_idem (c : cell) : astr (astr c) = astr c.
Proof. now destruct c. Qed.

Lemma to_datetime_cell_fixed (c c' : cell) :
  conv c = Some c' -> conv c' = Some c'.
Proof.
  destruct c as [s|z|d|]; simpl; try (intros [= <-]; reflexivity).
  destruct (parse_date s) as [[d|]|]; intros [= <-]; reflexivity.
Qed.

Lemma gameId_not_date (c : string) :
  String.eqb c "gameId" = true -> is_date_col c = false.
Proof. intros H. apply String.eqb_eq in H. subst c. reflexivity. Qed.

Lemma nth_cols_in_seq (cols : list string) (j : nat) (c : string) :
  String.eqb (nth j cols ""%string) c = true -> c <> ""%string ->
  In j (seq 0 (List.length cols)).
Proof.
  intros H Hc. apply in_seq. split; [lia|].
  destruct (Nat.lt_ge_cases j (List.length cols)) as [Hl|Hl]; [exact Hl|].
  rewrite nth_overflow in H by exact Hl. apply String.eqb_eq in H.
  congruence.
Qed.

Lemma gameid_to_str_fixed (cols : list string) (rs : list row) :
  gid_fixed show_date cols (gameid_to_str show_date cols rs).
Proof.
  set (Inv := fun vis acc => forall j, In j vis ->
          String.eqb (nth j cols ""%string) "gameId" = true ->
          forall r, In r acc -> upd j astr r = r).
  assert (H : Inv ([] ++ seq 0 (List.length cols)) (gameid_to_str show_date cols rs)).
  { unfold gameid_to_str, for_columns.
    apply fold_left_visit_inv; [| apply seq_NoDup | intros j []].
    intros vis k acc Hk Hinv j Hj Hg r Hr.
    apply in_app_or in Hj.
    destruct (String.eqb (nth k cols ""%string) "gameId") eqn:Hsel.
    - apply in_map_iff in Hr as [r0 [<- Hr0]].
      destruct (Nat.eq_dec j k) as [->|Hne].
      + rewrite upd_upd. apply upd_ext. apply astype_str_idem.
      + destruct Hj as [Hj|[E|[]]]; [|congruence].
        rewrite upd_comm by exact Hne. now rewrite (Hinv j Hj Hg r0 Hr0).
    - destruct Hj as [Hj|[<-|[]]]; [exact (Hinv j Hj Hg r Hr)|congruence]. }
  intros j Hg r Hr. apply (H j); auto.
  apply (nth_cols_in_seq _ _ _ Hg). discriminate.
Qed.

Lemma date_settled_map (j : nat) (g : row -> row) (rs : list row) :
  (forall r, at_col j (g r) = at_col j r) ->
  date_settled parse_date j rs -> date_settled parse_date j (map g rs).
Proof.
  intros Hg [H|[r [Hr Hn]]].
  - left. intros r' Hr'. apply in_map_iff in Hr' as [r [<- Hr]].
    rewrite Hg. auto.
  - right. exists (g r). split; [now apply in_map|]. now rewrite Hg.
Qed.

Lemma parse_date_cols_settled (cols : list string) (rs : list row) :
  gid_fixed show_date cols rs ->
  gid_fixed show_date cols (parse_date_cols parse_date cols rs) /\
  forall j, In j (seq 0 (List.length cols)) ->
    is_date_col (nth j cols ""%string) = true ->
    date_settled parse_date j (parse_date_cols parse_date cols rs).
Proof.
  intros Hg0.
  set (Inv := fun vis acc => gid_fixed show_date cols acc /\
          forall j, In j vis -> is_date_col (nth j cols ""%string) = true ->
          date_settled parse_date j acc).
  assert (H : Inv ([] ++ seq 0 (List.length cols)) (parse_date_cols parse_date cols rs)).
  { unfold parse_date_cols, for_columns.
    apply fold_left_visit_inv; [| apply seq_NoDup | split; [exact Hg0 | intros j []]].
    intros vis k acc Hk [Hg Hd].
    destruct (is_date_col (nth k cols ""%string)) eqn:Hsel.
    - unfold to_datetime_col.
      destruct (forallb _ acc) eqn:Hall.
      + split.
        * intros j Hj r' Hr'. apply in_map_iff in Hr' as [r [<- Hr]].
          assert (Hne : j <> k).
          { intros ->. rewrite (gameId_not_date _ Hj) in Hsel. discriminate. }
          rewrite upd_comm by exact Hne. now rewrite (Hg j Hj r Hr).
        * intros j Hj Hdj. apply in_app_or in Hj.
          destruct (Nat.eq_dec j k) as [->|Hne].
          -- left. intros r' Hr'. apply in_map_iff in Hr' as [r [<- Hr]].
             pose proof (proj1 (forallb_forall _ _) Hall r Hr) as Hc.
             cbv beta in Hc.
             destruct (conv (at_col k r)) as [c|] eqn:Hcv; [|discriminate].
             destruct (at_col_upd_same k cok r) as [E|[E _]]; rewrite E.
             ++ unfold to_datetime_or_keep. rewrite Hcv.
                exact (to_datetime_cell_fixed _ _ Hcv).
             ++ reflexivity.
          -- destruct Hj as [Hj|[E|[]]]; [|congruence].
             apply date_settled_map; [intros r; now apply at_col_upd_other|].
             auto.
      + split; [exact Hg|].
        intros j Hj Hdj. apply in_app_or in Hj.
        destruct (Nat.eq_dec j k) as [->|Hne].
        * right. apply forallb_false_ex in Hall as [r [Hr Hc]].
          exists r. split; [exact Hr|].
          destruct (conv (at_col k r)); [discriminate|reflexivity].
        * destruct Hj as [Hj|[E|[]]]; [auto|congruence].
    - split; [exact Hg|].
      intros j Hj Hdj. apply in_app_or in Hj.
      destruct Hj as [Hj|[<-|[]]]; [auto|congruence]. }
  destruct H as [Hg Hd]. split; [exact Hg|]. intros j Hj. apply Hd. exact Hj.
Qed.

Lemma normalize_rows_stable (cols : list string) (rs : list row) :
  gid_fixed show_date cols rs ->
  (forall j, j < List.length cols ->
     is_date_col (nth j cols ""%string) = true -> date_settled parse_date j rs) ->
  parse_date_cols parse_date cols (gameid_to_str show_date cols rs) = rs.
Proof.
  intros Hg Hd.
  assert (E : gameid_to_str show_date cols rs = rs).
  { apply for_columns_id. intros j _ Hj.
    rewrite <- (map_id rs) at 2. apply map_ext_in. intros r Hr. apply (Hg j Hj r Hr). }
  rewrite E. apply for_columns_id. intros j Hj Hsel.
  unfold to_datetime_col.
  destruct (Hd j Hj Hsel) as [Hf|[r [Hr Hn]]].
  - assert (Hall : forallb (fun r => if conv (at_col j r) then true else false) rs = true).
    { apply forallb_forall. intros r Hr. now rewrite (Hf r Hr). }
    rewrite Hall. rewrite <- (map_id rs) at 2. apply map_ext_in. intros r Hr.
    apply upd_fixed. unfold to_datetime_or_keep. now rewrite (Hf r Hr).
  - destruct (forallb _ rs) eqn:Hall; [|reflexivity].
    pose proof (proj1 (forallb_forall _ _) Hall r Hr) as Hc. cbv beta in Hc.
    now rewrite Hn in Hc.
Qed.

Lemma gid_fixed_same_members (cols : list string) (a b : list row) :
  (forall r, In r b -> In r a) -> gid_fixed show_date cols a ->
  gid_fixed show_date cols b.
Proof. intros Hab H j Hj r Hr. apply H; auto. Qed.

Lemma date_settled_same_members (j : nat) (a b : list row) :
  (forall r, In r a <-> In r b) ->
  date_settled parse_date j a -> date_settled parse_date j b.
Proof.
  intros Hab [H|[r [Hr Hn]]].
  - left. intros r Hr. apply H. now apply Hab.
  - right. exists r. split; [now apply Hab | exact Hn].
Qed.

(** C4: [_clean_for_tableau] is idempotent. *)
Theorem clean_for_tableau_idempotent (t : table) :
  clean_for_tableau show_date parse_date (clean_for_tableau show_date parse_date t) =
  clean_for_tableau show_date parse_date t.
Proof.
  destruct t as [cols rs].
  unfold clean_for_tableau, normalize. simpl.
  set (X := parse_date_cols parse_date cols (gameid_to_str show_date cols rs)).
  pose proof (gameid_to_str_fixed cols rs) as Hg0.
  destruct (parse_date_cols_settled cols _ Hg0) as [Hg Hd]. fold X in Hg, Hd.
  rewrite (normalize_rows_stable cols (drop_duplicates X)).
  - now rewrite drop_duplicates_idem.
  - apply (gid_fixed_same_members _ X); [intros r; apply drop_duplicates_in | exact Hg].
  - intros j Hj Hs. apply (date_settled_same_members _ X).
    + intros r. symmetry. apply drop_duplicates_in.
    + apply Hd; [apply in_seq; lia | exact Hs].
Qed.

(** C1 (amended): [_clean_for_tableau] removes only exact duplicate rows:
    it keeps the columns, its rows are pairwise distinct, and they are
    exactly the rows of the normalised input ([gameId] as text, date-like
    columns parsed).  Rows that share a key but differ elsewhere all stay. *)
Theorem clean_for_tableau_exact_dedup (t : table) :
  columns (clean_for_tableau show_date parse_date t) = columns t /\
  NoDup (rows (clean_for_tableau show_date parse_date t)) /\
  forall r, In r (rows (clean_for_tableau show_date parse_date t)) <->
            In r (rows (normalize show_date parse_date t)).
Proof.
  unfold clean_for_tableau. simpl. split; [reflexivity|]. split.
  - apply drop_dups_from_nodup.
  - intros r. apply drop_duplicates_in.
Qed.

End CleanProps.

(** C1 (as stated): two player rows of the same game and player that
    differ in [pts] both survive [_clean_for_tableau], so the output has
    two rows for one (gameId, personId) key. *)
Lemma clean_keeps_two_rows_for_one_key :
  let t := mk_table ["gameId"; "personId"; "points"]
             [[CStr "0022500001"; CNum 1628983; CNum 30];
              [CStr "0022500001"; CNum 1628983; CNum 31]] in
  ~ NoDup (map (row_key ["gameId"; "personId"] (columns t))
             (rows (clean_for_tableau Z_to_string (fun _ => None) t))).
Proof.
  intros t H. vm_compute in H. inversion H as [|? ? Hn]; subst.
  apply Hn. left. reflexivity.
Qed.

(** ** Resume *)

Lemma index_of_go_shift (x : string) (l : list string) (i : nat) :
  (fix go (l : list string) (i : nat) :=
     match l with [] => i | y :: l' => if String.eqb y x then i else go l' (S i) end) l (S i)
  = S ((fix go (l : list string) (i : nat) :=
     match l with [] => i | y :: l' => if String.eqb y x then i else go l' (S i) end) l i).
Proof.
  revert i. induction l as [|y l IH]; intros i; simpl; [reflexivity|].
  destruct (String.eqb y x); [reflexivity | apply IH].
Qed.

Lemma index_of_cons (x y : string) (l : list string) :
  index_of x (y :: l) = if String.eqb y x then 0 else S (index_of x l).
Proof.
  unfold index_of at 1. simpl. destruct (String.eqb y x); [reflexivity|].
  apply index_of_go_shift.
Qed.

Lemma mem_In (x : string) (l : list string) : mem x l = true <-> In x l.
Proof.
  unfold mem. rewrite existsb_exists. split.
  - intros [y [Hy E]]. apply String.eqb_eq in E. now subst.
  - intros H. exists x. split; [exact H | apply String.eqb_refl].
Qed.

Lemma index_of_first (x : string) (l : list string) :
  mem x l = true ->
  nth_error l (index_of x l) = Some x /\
  forall k y, k < index_of x l -> nth_error l k = Some y -> y <> x.
Proof.
  induction l as [|y l IH]; [discriminate|]. intros Hm.
  rewrite index_of_cons. destruct (String.eqb y x) eqn:E.
  - apply String.eqb_eq in E. subst. split; [reflexivity|]. intros k z Hk. lia.
  - assert (Hm' : mem x l = true).
    { unfold mem in *. simpl in Hm. rewrite String.eqb_sym, E in Hm. exact Hm. }
    destruct (IH Hm') as [H1 H2]. split; [exact H1|].
    intros [|k] z Hk Hz.
    + simpl in Hz. injection Hz as <-. intros ->. now rewrite String.eqb_refl in E.
    + apply (H2 k); [lia | exact Hz].
Qed.

Lemma in_filter_not_done (game_ids done : list string) (g : string) :
  In g (filter (fun gid => negb (mem gid done)) game_ids) ->
  In g game_ids /\ ~ In g done.
Proof.
  rewrite filter_In. intros [H1 H2]. split; [exact H1|].
  intros Hd. apply (mem_In g done) in Hd. now rewrite Hd in H2.
Qed.

(** C5 (as stated): with the marker present in the id list, the run
    still fetches the id before it (the marker's game is already in the
    output file, so it is filtered out before the marker is looked up);
    with the marker absent, the run does not start from the beginning of
    the list (ids already in the file are skipped). *)
Lemma resume_not_at_marker_index :
  let prior := mk_table ["gameId"; "pts"] [[CStr "0022500002"; CNum 99]] in
  let ep := fun _ : string => Some [mk_table ["gameId"; "pts"] [[CStr "x"; CNum 1]]] in
  option_map fetched_ids
    (run Z_to_string (fun _ => None) ep 0 ["0022500001"; "0022500002"]
       (Some prior) (Some "0022500002") (6 # 10)) = Some ["0022500001"] /\
  option_map fetched_ids
    (run Z_to_string (fun _ => None) ep 0 ["0022500002"; "0022500003"]
       (Some prior) (Some "0022500099") (6 # 10)) = Some ["0022500003"].
Proof. split; vm_compute; reflexivity. Qed.

(** C5 (amended): the ids to process are the ids of the list that are not
    yet in the output file, in order.  If the stripped marker is one of
    them, processing starts at its first position in that filtered list
    and no filtered id before it is processed; otherwise (or without a
    marker file) the whole filtered list is processed.  Ids already in
    the file are never processed. *)
Theorem resume_from_marker_in_filtered_ids (game_ids done : list string)
    (contents : string) :
  let rem := filter (fun gid => negb (mem gid done)) game_ids in
  let m := strip contents in
  (mem m rem = true ->
     resume_remaining game_ids done (Some contents) = skipn (list_index m rem) rem /\
     nth_error rem (list_index m rem) = Some m /\
     forall k y, k < list_index m rem -> nth_error rem k = Some y -> y <> m) /\
  (mem m rem = false -> resume_remaining game_ids done (Some contents) = rem) /\
  resume_remaining game_ids done None = rem /\
  (forall marker g, In g (resume_remaining game_ids done marker) ->
     In g game_ids /\ ~ In g done).
Proof.
  intros rem m. unfold resume_remaining. fold rem. fold m.
  split; [|split; [|split]].
  - intros Hm. rewrite Hm. split; [reflexivity|]. apply index_of_first. exact Hm.
  - intros Hm. now rewrite Hm.
  - reflexivity.
  - intros [c|] g Hg; apply (in_filter_not_done game_ids done g).
    + destruct (mem (strip c) rem); [|exact Hg].
      change (In g rem).
      rewrite <- (firstn_skipn (list_index (strip c) rem) rem).
      apply in_or_app. right. exact Hg.
    + exact Hg.
Qed.

Lemma resume_from_marker_in_filtered_ids_witness :
  resume_remaining ["a"; "b"; "c"] ["z"] (Some "b") = ["b"; "c"].
Proof.
  apply (proj1 (resume_from_marker_in_filtered_ids ["a"; "b"; "c"] ["z"] "b")).
  vm_compute. reflexivity.
Defined.

(** ** The fetch loop *)

Section LoopProps.

Variable show_date : Z -> string.
Variable parse_date : string -> option (option Z).
Variable endpoint : string -> option (list table).
Variable df_index : nat.

Local Abbreviation stp := (step show_date parse_date endpoint df_index).
Local Abbreviation lp := (loop show_date parse_date endpoint df_index).
Local Abbreviation rn := (run show_date parse_date endpoint df_index).
Local Abbreviation ftab := (fetch_table show_date endpoint df_index).
Local Abbreviation cln := (clean show_date parse_date).

Lemma fetched_ids_app (a b : list event) :
  fetched_ids (a ++ b) = fetched_ids a ++ fetched_ids b.
Proof. unfold fetched_ids. apply flat_map_app. Qed.

Lemma step_fetched (i n : nat) (gid : string) (st : table * Q) :
  fetched_ids (fst (stp i n gid st)) = [gid].
Proof.
  destruct st as [acc tb]. unfold step.
  destruct (fetch_table _ _ _ gid); [destruct (checkpoint_due i n)|]; reflexivity.
Qed.

Lemma loop_fetched (i n : nat) (l : list string) (st : table * Q) :
  fetched_ids (fst (lp i n l st)) = l.
Proof.
  revert i st. induction l as [|gid l IH]; intros i st; [reflexivity|].
  simpl. pose proof (step_fetched i n gid st) as Hs.
  destruct (stp i n gid st) as [ev st'] eqn:E.
  pose proof (IH (S i) st') as Hl.
  destruct (lp (S i) n l st') as [ev' st''] eqn:E'. simpl in *.
  rewrite fetched_ids_app, Hs, Hl. reflexivity.
Qed.

Lemma run_fetched (game_ids : list string) (existing : option table)
    (marker : option string) (tb : Q) (all_data : table) (evs : list event) :
  read_existing_csv show_date existing = Some all_data ->
  rn game_ids existing marker tb = Some evs ->
  fetched_ids evs = resume_remaining game_ids (done_ids show_date all_data) marker.
Proof.
  intros Hr Hrun. unfold run in Hrun. rewrite Hr in Hrun.
  set (rem := resume_remaining _ _ _) in *.
  pose proof (loop_fetched 1 (List.length rem) rem (all_data, clamp_buffer tb)) as Hl.
  destruct (lp 1 _ rem _) as [ev [final tb']]. injection Hrun as <-.
  simpl in Hl. rewrite fetched_ids_app, Hl. simpl. apply app_nil_r.
Qed.

(** C6: when the fetch of an id fails, its iteration writes the cleaned
    accumulated data and the id as marker, sleeps for the backed-off pause,
    and keeps the accumulated data; every id that remains after resume is
    fetched exactly once, in order, so no failure ends the loop early. *)
Theorem fetch_failure_persists_and_continues :
  (forall i n gid acc tb, ftab gid = None ->
     stp i n gid (acc, tb) =
       ([EFetch gid None; EWriteCsv (cln acc); EWriteMarker gid;
         ESleep (pause (backoff tb))], (acc, backoff tb))) /\
  (forall game_ids existing marker tb all_data evs,
     read_existing_csv show_date existing = Some all_data ->
     rn game_ids existing marker tb = Some evs ->
     fetched_ids evs = resume_remaining game_ids (done_ids show_date all_data) marker).
Proof.
  split.
  - intros i n gid acc tb Hf. unfold step. now rewrite Hf.
  - intros. eapply run_fetched; eauto.
Qed.

End LoopProps.

Lemma fetch_failure_persists_and_continues_witness :
  let ep := fun g : string =>
    if String.eqb g "g2" then None
    else Some [mk_table ["gameId"; "pts"] [[CStr g; CNum 1]]] in
  step Z_to_string (fun _ => None) ep 0 2 3 "g2" (mk_table ["gameId"] [], 1 # 1) =
    ([EFetch "g2" None; EWriteCsv (clean Z_to_string (fun _ => None) (mk_table ["gameId"] []));
      EWriteMarker "g2"; ESleep (pause (backoff (1 # 1)))],
     (mk_table ["gameId"] [], backoff (1 # 1))) /\
  option_map fetched_ids
    (run Z_to_string (fun _ => None) ep 0 ["g1"; "g2"; "g3"] None None (1 # 1)) =
    Some ["g1"; "g2"; "g3"].
Proof.
  intros ep. split.
  - apply (proj1 (fetch_failure_persists_and_continues Z_to_string (fun _ => None) ep 0)).
    vm_compute. reflexivity.
  - pose proof (proj2 (fetch_failure_persists_and_continues Z_to_string (fun _ => None) ep 0)
      ["g1"; "g2"; "g3"] None None (1 # 1) (mk_table ["gameId"] [])) as H.
    destruct (run Z_to_string (fun _ => None) ep 0 ["g1"; "g2"; "g3"] None None (1 # 1))
      as [evs|] eqn:E.
    + simpl. rewrite (H evs eq_refl eq_refl). reflexivity.
    + vm_compute in E. discriminate E.
Defined.

(** ** Traces of the loop *)

Lemma accumulated_app (p : table) (a b : list event) :
  accumulated p (a ++ b) = accumulated (accumulated p a) b.
Proof. unfold accumulated. apply fold_left_app. Qed.

Lemma trace_ok_nth P (p : table) (l : list event) :
  (forall k x, nth_error l k = Some x -> P p (firstn k l) x) -> trace_ok P p l.
Proof.
  intros H pre x post ->. specialize (H (List.length pre) x).
  rewrite firstn_app, Nat.sub_diag, firstn_all, app_nil_r in H.
  apply H. rewrite nth_error_app2 by lia. now rewrite Nat.sub_diag.
Qed.

Lemma trace_ok_app P (p : table) (a b : list event) :
  (forall q A pre x, P (accumulated q A) pre x -> P q (A ++ pre) x) ->
  trace_ok P p a -> trace_ok P (accumulated p a) b -> trace_ok P p (a ++ b).
Proof.
  intros Hshift Ha Hb pre x post E.
  apply app_eq_app in E as [l [[E1 E2]|[E1 E2]]].
  - destruct l as [|y l].
    + simpl in E2. rewrite app_nil_r in E1. subst a b.
      rewrite <- (app_nil_r pre). apply Hshift. apply (Hb [] x post). reflexivity.
    + injection E2 as <- _. apply (Ha pre x l). exact E1.
  - subst pre. apply Hshift. apply (Hb l x post). exact E2.
Qed.

Section TraceProps.

Variable show_date : Z -> string.
Variable parse_date : string -> option (option Z).
Variable endpoint : string -> option (list table).
Variable df_index : nat.

Local Abbreviation stp := (step show_date parse_date endpoint df_index).
Local Abbreviation lp := (loop show_date parse_date endpoint df_index).
Local Abbreviation rn := (run show_date parse_date endpoint df_index).
Local Abbreviation cln := (clean show_date parse_date).
Local Abbreviation ok := (event_ok show_date parse_date).

Lemma event_ok_shift (q : table) (A pre : list event) (x : event) :
  ok (accumulated q A) pre x -> ok q (A ++ pre) x.
Proof.
  destruct x; simpl; auto.
  - intros ->. now rewrite accumulated_app.
  - intros [[pre' [df [d E]]]|[pre' E]]; subst pre.
    + left. exists (A ++ pre'), df, d. rewrite <- app_assoc, accumulated_app.
      reflexivity.
    + right. exists (A ++ pre'). rewrite <- app_assoc, accumulated_app.
      reflexivity.
Qed.

Lemma step_trace_ok (i n : nat) (gid : string) (acc : table) (tb : Q) :
  trace_ok ok acc (fst (stp i n gid (acc, tb))) /\
  fst (snd (stp i n gid (acc, tb))) = accumulated acc (fst (stp i n gid (acc, tb))).
Proof.
  unfold step. destruct (fetch_table show_date endpoint df_index gid) as [df|];
    [destruct (checkpoint_due i n)|]; simpl; (split; [|reflexivity]);
    apply trace_ok_nth; intros k x Hk;
    destruct k as [|[|[|[|k]]]]; simpl in Hk; try discriminate;
    try (destruct k; discriminate); injection Hk as <-; simpl; auto.
  - left. exists [], df, tb. reflexivity.
  - right. exists []. reflexivity.
Qed.

Lemma loop_trace_ok (i n : nat) (l : list string) (acc : table) (tb : Q) :
  trace_ok ok acc (fst (lp i n l (acc, tb))) /\
  fst (snd (lp i n l (acc, tb))) = accumulated acc (fst (lp i n l (acc, tb))).
Proof.
  revert i acc tb. induction l as [|gid l IH]; intros i acc tb.
  - simpl. split; [|reflexivity]. intros pre x post E. now destruct pre.
  - cbn [loop]. destruct (step_trace_ok i n gid acc tb) as [Hs Ha].
    destruct (stp i n gid (acc, tb)) as [ev [acc' tb']]. cbn [fst snd] in Hs, Ha.
    destruct (IH (S i) acc' tb') as [Hl Hla].
    destruct (lp (S i) n l (acc', tb')) as [ev' [acc'' tb'']].
    cbn [fst snd] in *.
    split.
    + apply trace_ok_app; [exact event_ok_shift | exact Hs | now rewrite <- Ha].
    + now rewrite accumulated_app, <- Ha.
Qed.

Lemma run_trace_ok (game_ids : list string) (existing : option table)
    (marker : option string) (tb : Q) (all_data : table) (evs : list event) :
  read_existing_csv show_date existing = Some all_data ->
  rn game_ids existing marker tb = Some evs ->
  trace_ok ok all_data evs.
Proof.
  intros Hr Hrun. unfold run in Hrun. rewrite Hr in Hrun.
  set (rem := resume_remaining _ _ _) in *.
  destruct (loop_trace_ok 1 (List.length rem) rem all_data (clamp_buffer tb))
    as [Hl Ha].
  destruct (lp 1 _ rem _) as [ev [final tb']]. injection Hrun as <-.
  simpl in Hl, Ha.
  apply trace_ok_app; [exact event_ok_shift | exact Hl |].
  apply trace_ok_nth. intros [|k] x Hk; simpl in Hk;
    [|destruct k; discriminate].
  injection Hk as <-. simpl. now rewrite Ha.
Qed.

(** C7 (amended): every marker write of a run comes right after the CSV
    write of the cleaned accumulated data, and names either a game just
    fetched whose table is included in that CSV (a periodic checkpoint),
    or the game whose fetch just failed, not included in that CSV. *)
Theorem marker_names_checkpointed_or_failed_game
    (game_ids : list string) (existing : option table) (marker : option string)
    (tb : Q) (all_data : table) (evs : list event) :
  read_existing_csv show_date existing = Some all_data ->
  rn game_ids existing marker tb = Some evs ->
  forall pre m post, evs = pre ++ EWriteMarker m :: post ->
    (exists pre' df d, pre = pre' ++
       [EFetch m (Some df); ESleep d;
        EWriteCsv (cln (concat_tables (accumulated all_data pre') df))]) \/
    (exists pre', pre = pre' ++
       [EFetch m None; EWriteCsv (cln (accumulated all_data pre'))]).
Proof.
  intros Hr Hrun pre m post E.
  exact (run_trace_ok game_ids existing marker tb all_data evs Hr Hrun pre _ post E).
Qed.

Lemma persist_is_clean_accumulation
    (game_ids : list string) (existing : option table) (marker : option string)
    (tb : Q) (all_data : table) (evs : list event) :
  read_existing_csv show_date existing = Some all_data ->
  rn game_ids existing marker tb = Some evs ->
  forall pre t post, evs = pre ++ EWriteCsv t :: post ->
    t = cln (accumulated all_data pre).
Proof.
  intros Hr Hrun pre t post E.
  exact (run_trace_ok game_ids existing marker tb all_data evs Hr Hrun pre _ post E).
Qed.

End TraceProps.

(** ** Files after a stop *)

Lemma apply_ops_app (f : files) (a b : list fs_op) :
  apply_ops f (a ++ b) = apply_ops (apply_ops f a) b.
Proof. unfold apply_ops. apply fold_left_app. Qed.

Lemma apply_appends (f : files) (ls : list csv_line) :
  csv_file (apply_ops f (map OAppendCsv ls)) = csv_file f ++ ls.
Proof.
  revert f. induction ls as [|l ls IH]; intros f; simpl; [now rewrite app_nil_r|].
  unfold apply_ops in *. simpl. rewrite IH. simpl. now rewrite <- app_assoc.
Qed.

(** A stop inside an event that is not a CSV write leaves the CSV file. *)
Lemma partial_non_csv_event (e : event) (m : nat) (f : files) :
  (forall t, e <> EWriteCsv t) ->
  csv_file (apply_ops f (firstn m (ops_of_event e))) = csv_file f.
Proof.
  intros He. destruct e as [g r|d|t|g]; simpl;
    [rewrite firstn_nil; reflexivity | rewrite firstn_nil; reflexivity
    | exfalso; exact (He t eq_refl) |].
  destruct m as [|[|m]]; simpl; try rewrite firstn_nil; reflexivity.
Qed.

Lemma last_persist_snoc (evs : list event) (e : event) :
  last_persist (evs ++ [e]) =
  match e with EWriteCsv t => Some t | _ => last_persist evs end.
Proof. unfold last_persist. rewrite fold_left_app. reflexivity. Qed.

Lemma csv_after_events (f : files) (evs : list event) :
  csv_file (apply_ops f (flat_map ops_of_event evs)) =
  match last_persist evs with Some t => csv_lines t | None => csv_file f end.
Proof.
  induction evs as [|e evs IH] using rev_ind; [reflexivity|].
  rewrite flat_map_app, apply_ops_app, last_persist_snoc. simpl.
  rewrite app_nil_r. destruct e as [g r|d|t|g].
  - simpl. exact IH.
  - simpl. exact IH.
  - unfold ops_of_event. change (OTruncCsv :: map OAppendCsv (csv_lines t))
      with ([OTruncCsv] ++ map OAppendCsv (csv_lines t)).
    rewrite apply_ops_app, apply_appends. reflexivity.
  - simpl. exact IH.
Qed.


Lemma skipn_nth_error {A} (l : list A) (j : nat) (e : A) :
  nth_error l j = Some e -> skipn j l = e :: skipn (S j) l.
Proof.
  revert j. induction l as [|x l IH]; intros [|j] H; simpl in *;
    try discriminate; [now injection H as -> | now apply IH].
Qed.

Lemma crash_between_events (f0 : files) (evs : list event) (j m : nat) :
  (m = 0 \/ exists e, nth_error evs j = Some e /\ (forall t, e <> EWriteCsv t) /\
                      m <= List.length (ops_of_event e)) ->
  csv_file (crash_after f0 evs (List.length (flat_map ops_of_event (firstn j evs)) + m)) =
  match last_persist (firstn j evs) with Some t => csv_lines t | None => csv_file f0 end.
Proof.
  intros Hm. unfold crash_after.
  rewrite <- (firstn_skipn j evs) at 2. rewrite flat_map_app, firstn_app.
  rewrite firstn_all2 by lia.
  replace (List.length (flat_map ops_of_event (firstn j evs)) + m -
           List.length (flat_map ops_of_event (firstn j evs))) with m by lia.
  rewrite apply_ops_app.
  destruct Hm as [->|[e [He [Hne Hle]]]].
  - simpl. apply csv_after_events.
  - rewrite (skipn_nth_error evs j e He). simpl.
    rewrite firstn_app. replace (m - List.length (ops_of_event e)) with 0 by lia.
    rewrite firstn_O, app_nil_r, partial_non_csv_event by exact Hne.
    apply csv_after_events.
Qed.

(** C9 (amended): if a run stops at a point that is not inside a CSV
    write (between events, or inside a marker write), the output file holds
    the CSV of the most recent completed persist, or its earlier content
    when there was none; and every persist writes the cleaned accumulation
    of the prior data and of every table fetched before it. *)
Theorem stop_outside_csv_write_keeps_last_persist
    (show_date : Z -> string) (parse_date : string -> option (option Z))
    (endpoint : string -> option (list table)) (df_index : nat)
    (game_ids : list string) (existing : option table) (marker : option string)
    (tb : Q) (all_data : table) (evs : list event) :
  read_existing_csv show_date existing = Some all_data ->
  run show_date parse_date endpoint df_index game_ids existing marker tb = Some evs ->
  (forall pre t post, evs = pre ++ EWriteCsv t :: post ->
     t = clean show_date parse_date (accumulated all_data pre)) /\
  (forall f0 j m,
     (m = 0 \/ exists e, nth_error evs j = Some e /\ (forall t, e <> EWriteCsv t) /\
                         m <= List.length (ops_of_event e)) ->
     csv_file (crash_after f0 evs (List.length (flat_map ops_of_event (firstn j evs)) + m)) =
     match last_persist (firstn j evs) with
     | Some t => csv_lines t
     | None => csv_file f0
     end).
Proof.
  intros Hr Hrun. split.
  - exact (persist_is_clean_accumulation show_date parse_date endpoint df_index
             game_ids existing marker tb all_data evs Hr Hrun).
  - intros f0 j m Hm. apply crash_between_events. exact Hm.
Qed.

Lemma stop_outside_csv_write_keeps_last_persist_witness :
  let ep := fun g : string =>
    if String.eqb g "g2" then None
    else Some [mk_table ["gameId"; "pts"] [[CStr g; CNum 1]]] in
  option_map (fun evs => csv_file (crash_after (mk_files [] "") evs
                                     (List.length (flat_map ops_of_event (firstn 4 evs)) + 1)))
    (run Z_to_string (fun _ => None) ep 0 ["g1"; "g2"] None None (1 # 1)) =
  Some (csv_lines (mk_table ["gameId"; "pts"] [[CStr "g1"; CNum 1]])).
Proof.
  intros ep.
  pose proof (stop_outside_csv_write_keeps_last_persist Z_to_string (fun _ => None) ep 0
                ["g1"; "g2"] None None (1 # 1) (mk_table ["gameId"] [])) as H.
  destruct (run Z_to_string (fun _ => None) ep 0 ["g1"; "g2"] None None (1 # 1))
    as [evs|] eqn:E; [|vm_compute in E; discriminate E].
  cbn [option_map]. f_equal.
  rewrite (proj2 (H evs eq_refl eq_refl) (mk_files [] "") 4 1).
  - vm_compute in E. injection E as <-. vm_compute. reflexivity.
  - right. vm_compute in E. injection E as <-.
    exists (EWriteMarker "g2"). split; [reflexivity|]. split; [discriminate | simpl; lia].
Defined.

(** C9 (as stated): a stop right after the output file is truncated by the
    first persist leaves it empty, although the rows persisted before the
    stop (the prior content of the file) were not empty. *)
Lemma stop_during_persist_empties_file :
  let prior := mk_table ["gameId"; "pts"] [[CStr "0022500001"; CNum 99]] in
  let f0 := mk_files (csv_lines prior) "" in
  csv_file f0 = [Header ["gameId"; "pts"]; Line [CStr "0022500001"; CNum 99]] /\
  option_map (fun evs => csv_file (crash_after f0 evs 1))
    (run Z_to_string (fun _ => None) (fun _ => None) 0 ["0022500002"]
       (Some prior) None (6 # 10)) = Some [].
Proof. split; vm_compute; reflexivity. Qed.

(** C7 (as stated): a failed fetch writes its game id as the marker,
    although that game was not processed and no row of it was persisted. *)
Lemma marker_written_for_failed_game :
  run Z_to_string (fun _ => None) (fun _ => None) 0 ["0022500001"] None None (6 # 10) =
  Some [EFetch "0022500001" None; EWriteCsv (mk_table ["gameId"] []);
        EWriteMarker "0022500001"; ESleep 30; EWriteCsv (mk_table ["gameId"] [])].
Proof. vm_compute. reflexivity. Qed.

Lemma marker_names_checkpointed_or_failed_game_witness :
  read_existing_csv Z_to_string None = Some (mk_table ["gameId"] []) /\
  run Z_to_string (fun _ => None) (fun _ => None) 0 ["0022500002"] None None (6 # 10) =
    Some [EFetch "0022500002" None; EWriteCsv (mk_table ["gameId"] []);
          EWriteMarker "0022500002"; ESleep 30; EWriteCsv (mk_table ["gameId"] [])] /\
  event_ok Z_to_string (fun _ => None) (mk_table ["gameId"] [])
    [EFetch "0022500002" None; EWriteCsv (mk_table ["gameId"] [])]
    (EWriteMarker "0022500002").
Proof.
  assert (H1 : read_existing_csv Z_to_string None = Some (mk_table ["gameId"] []))
    by (vm_compute; reflexivity).
  assert (H2 : run Z_to_string (fun _ => None) (fun _ => None) 0 ["0022500002"] None None (6 # 10) =
    Some [EFetch "0022500002" None; EWriteCsv (mk_table ["gameId"] []);
          EWriteMarker "0022500002"; ESleep 30; EWriteCsv (mk_table ["gameId"] [])])
    by (vm_compute; reflexivity).
  split; [exact H1|]. split; [exact H2|].
  exact (marker_names_checkpointed_or_failed_game Z_to_string (fun _ => None)
    (fun _ => None) 0 ["0022500002"] None None (6 # 10) _ _ H1 H2
    [EFetch "0022500002" None; EWriteCsv (mk_table ["gameId"] [])]
    "0022500002" [ESleep 30; EWriteCsv (mk_table ["gameId"] [])] eq_refl).
Defined.

(** ** The request delay *)

Section DelayProps.

Local Open Scope Q_scope.

Lemma pow2_pos (e : Z) : 0 < pow2 e.
Proof. apply Qpower_0_lt. reflexivity. Qed.

Lemma pow2_add (a b : Z) : pow2 (a + b) == pow2 a * pow2 b.
Proof. apply Qpower_plus. discriminate. Qed.

Lemma pow2_lt (a b : Z) : (a < b)%Z -> pow2 a < pow2 b.
Proof. intros H. apply Qpower_lt_compat_l; [exact H | reflexivity]. Qed.

Lemma pow2_le (a b : Z) : (a <= b)%Z -> pow2 a <= pow2 b.
Proof. intros H. apply Qpower_le_compat_l; [exact H | discriminate]. Qed.

Lemma pow2_lt_inv (a b : Z) : pow2 a < pow2 b -> (a < b)%Z.
Proof. intros H. exact (Qpower_lt_compat_l_inv _ _ _ H ltac:(reflexivity)). Qed.

Lemma pow2_Z (e : Z) : (0 <= e)%Z -> pow2 e == inject_Z (2 ^ e).
Proof. intros H. unfold pow2. rewrite (Zpower_Qpower 2 e H). reflexivity. Qed.

Lemma Qmult_lt_cancel_r (a b c : Q) : 0 < c -> a * c < b * c -> a < b.
Proof. intros Hc H. apply (Qmult_lt_r _ _ c Hc). exact H. Qed.

Lemma Qabs_pos_lt' (x : Q) : ~ x == 0 -> 0 < Qabs x.
Proof.
  intros Hx. apply Qabs_case; intros H.
  - apply Qle_lteq in H as [H|H]; [exact H | exfalso; apply Hx; rewrite H; reflexivity].
  - apply Qle_lteq in H as [H|H]; [lra | exfalso; apply Hx; exact H].
Qed.

Lemma mag_spec (x : Q) :
  ~ x == 0 -> pow2 (mag x - 1) <= Qabs x < pow2 (mag x).
Proof.
  intros Hx. unfold mag.
  pose proof (Qred_correct (Qabs x)) as Hy.
  pose proof (Qabs_pos_lt' x Hx) as Hpos.
  destruct (Qred (Qabs x)) as [n d] eqn:Ey. cbn [Qnum Qden].
  rewrite <- Hy. rewrite <- Hy in Hpos.
  assert (Hn : (0 < n)%Z) by (unfold Qlt in Hpos; simpl in Hpos; lia).
  set (a := Z.log2 n). set (b := Z.log2 (Z.pos d)).
  destruct (Z.log2_spec n Hn) as [Ha1 Ha2]. fold a in Ha1, Ha2.
  destruct (Z.log2_spec (Z.pos d) eq_refl) as [Hb1 Hb2]. fold b in Hb1, Hb2.
  assert (Ha0 : (0 <= a)%Z) by apply Z.log2_nonneg.
  assert (Hb0 : (0 <= b)%Z) by apply Z.log2_nonneg.
  assert (Key : (n # d) * inject_Z (Z.pos d) == inject_Z n)
    by (unfold Qeq; simpl; lia).
  assert (Hd : 0 < inject_Z (Z.pos d)) by (unfold Qlt; simpl; lia).
  assert (P1 : pow2 (a - b - 1) < n # d).
  { apply (Qmult_lt_cancel_r _ _ (pow2 (b + 1)) (pow2_pos _)).
    rewrite <- pow2_add. replace (a - b - 1 + (b + 1))%Z with a by lia.
    rewrite (pow2_Z a Ha0).
    apply Qle_lt_trans with (inject_Z n); [rewrite <- Zle_Qle; exact Ha1|].
    rewrite <- Key. apply Qmult_lt_l; [exact Hpos|].
    rewrite (pow2_Z (b + 1)) by lia. rewrite <- Zlt_Qlt.
    rewrite Z.add_1_r. exact Hb2. }
  assert (P2 : n # d < pow2 (a - b + 1)).
  { apply (Qmult_lt_cancel_r _ _ (inject_Z (Z.pos d)) Hd).
    rewrite Key.
    apply Qlt_le_trans with (pow2 (a - b + 1) * pow2 b).
    - rewrite <- pow2_add. replace (a - b + 1 + b)%Z with (Z.succ a) by lia.
      rewrite (pow2_Z (Z.succ a)) by lia. rewrite <- Zlt_Qlt. exact Ha2.
    - apply Qmult_le_l; [apply pow2_pos|].
      rewrite (pow2_Z b Hb0). rewrite <- Zle_Qle. exact Hb1. }
  destruct (Qle_bool (pow2 (a - b)) (n # d)) eqn:Hc.
  - apply Qle_bool_iff in Hc. replace (a - b + 1 - 1)%Z with (a - b)%Z by lia.
    split; [exact Hc|]. exact P2.
  - assert (Hc' : n # d < pow2 (a - b)).
    { apply Qnot_le_lt. intros H. apply Qle_bool_iff in H. congruence. }
    split; [apply Qlt_le_weak; exact P1 | exact Hc'].
Qed.

Lemma mag_Qeq (x y : Q) : x == y -> mag x = mag y.
Proof.
  intros H. unfold mag. rewrite (Qred_complete (Qabs x) (Qabs y)); [reflexivity|].
  apply Qabs_wd. exact H.
Qed.

Lemma mag_pos_spec (x : Q) : 0 < x -> pow2 (mag x - 1) <= x < pow2 (mag x).
Proof.
  intros H. assert (Hx : ~ x == 0) by (intros E; rewrite E in H; discriminate).
  pose proof (mag_spec x Hx) as Hs. rewrite Qabs_pos in Hs by lra. exact Hs.
Qed.

Lemma mag_le (x : Q) (e : Z) : 0 < x -> x < pow2 e -> (mag x <= e)%Z.
Proof.
  intros H He. destruct (mag_pos_spec x H) as [H1 _].
  assert (mag x - 1 < e)%Z by (apply pow2_lt_inv; lra). lia.
Qed.

Lemma mag_ge (x : Q) (e : Z) : 0 < x -> pow2 e <= x -> (e < mag x)%Z.
Proof.
  intros H He. destruct (mag_pos_spec x H) as [_ H2].
  apply pow2_lt_inv; lra.
Qed.

Lemma mag_mono (x y : Q) : 0 < x -> x <= y -> (mag x <= mag y)%Z.
Proof.
  intros Hx Hxy. destruct (mag_pos_spec x Hx) as [H1 _].
  destruct (mag_pos_spec y ltac:(lra)) as [_ H2].
  assert (mag x - 1 < mag y)%Z by (apply pow2_lt_inv; lra). lia.
Qed.

Lemma rhe_floor (y : Q) :
  round_half_even y = Qfloor y \/ round_half_even y = (Qfloor y + 1)%Z.
Proof.
  unfold round_half_even.
  destruct (Qlt_le_dec _ _); [right; reflexivity|].
  destruct (Qeq_dec _ _); [destruct (Z.even _)|]; auto.
Qed.

Lemma rhe_lower (y : Q) : y - (1 # 2) <= inject_Z (round_half_even y).
Proof.
  unfold round_half_even. set (f := Qfloor y).
  pose proof (Qfloor_le y) as H1. pose proof (Qlt_floor y) as H2.
  fold f in H1, H2. rewrite inject_Z_plus in H2.
  destruct (Qlt_le_dec (1 # 2) (y - inject_Z f)) as [H|H].
  - rewrite inject_Z_plus. lra.
  - destruct (Qeq_dec (y - inject_Z f) (1 # 2)) as [E|E].
    + destruct (Z.even f); [lra | rewrite inject_Z_plus; lra].
    + lra.
Qed.

Lemma rhe_le (y : Q) (b : Z) : y <= inject_Z b -> (round_half_even y <= b)%Z.
Proof.
  intros Hy. unfold round_half_even. set (f := Qfloor y).
  pose proof (Qfloor_le y) as H1. fold f in H1.
  assert (Hfb : (f <= b)%Z).
  { rewrite <- (Qfloor_Z b). apply Qfloor_resp_le. exact Hy. }
  destruct (Z.eq_dec f b) as [Efb|Nfb].
  - assert (Hr : y - inject_Z f <= 0) by (rewrite Efb; lra).
    destruct (Qlt_le_dec (1 # 2) (y - inject_Z f)); [lra|].
    destruct (Qeq_dec (y - inject_Z f) (1 # 2)) as [E|E]; [lra | lia].
  - destruct (Qlt_le_dec _ _); [lia|].
    destruct (Qeq_dec _ _); [destruct (Z.even f)|]; lia.
Qed.

Lemma rhe_ge (y : Q) (b : Z) : inject_Z b <= y -> (b <= round_half_even y)%Z.
Proof.
  intros Hy. assert (Hf : (b <= Qfloor y)%Z).
  { rewrite <- (Qfloor_Z b). apply Qfloor_resp_le. exact Hy. }
  destruct (rhe_floor y) as [E|E]; rewrite E; lia.
Qed.

Lemma rhe_int (z : Z) : round_half_even (inject_Z z) = z.
Proof.
  apply Z.le_antisymm; [apply rhe_le | apply rhe_ge]; apply Qle_refl.
Qed.

Lemma rhe_mono (y1 y2 : Q) : y1 <= y2 -> (round_half_even y1 <= round_half_even y2)%Z.
Proof.
  intros H. pose proof (Qfloor_resp_le _ _ H) as Hf.
  destruct (Z.eq_dec (Qfloor y1) (Qfloor y2)) as [E|N].
  - unfold round_half_even. rewrite E. set (f := Qfloor y2).
    destruct (Qlt_le_dec (1 # 2) (y2 - inject_Z f)) as [A|A].
    + destruct (Qlt_le_dec _ _); [lia|].
      destruct (Qeq_dec _ _); [destruct (Z.even f)|]; lia.
    + destruct (Qlt_le_dec (1 # 2) (y1 - inject_Z f)) as [B|B]; [lra|].
      destruct (Qeq_dec (y2 - inject_Z f) (1 # 2)) as [C|C].
      * destruct (Qeq_dec (y1 - inject_Z f) (1 # 2)); [lia|].
        destruct (Z.even f); lia.
      * destruct (Qeq_dec (y1 - inject_Z f) (1 # 2)) as [D|D]; [|lia].
        exfalso. apply C. apply Qle_antisym; [exact A | lra].
  - destruct (rhe_floor y1) as [E1|E1]; destruct (rhe_floor y2) as [E2|E2];
      rewrite E1, E2; lia.
Qed.

Lemma rhe_Qeq (y1 y2 : Q) : y1 == y2 -> round_half_even y1 = round_half_even y2.
Proof.
  intros H. apply Z.le_antisymm; apply rhe_mono; rewrite H; apply Qle_refl.
Qed.

Lemma fexp_Qeq (x y : Q) : x == y -> fexp x = fexp y.
Proof. intros H. unfold fexp. now rewrite (mag_Qeq x y H). Qed.

Lemma to_double_Qeq (x y : Q) : x == y -> to_double x == to_double y.
Proof.
  intros H. unfold to_double. rewrite (fexp_Qeq x y H).
  rewrite (rhe_Qeq (x / pow2 (fexp y)) (y / pow2 (fexp y))); [reflexivity|].
  rewrite H. reflexivity.
Qed.

(** Rounding on the grid of multiples of [2 ^ f]. *)
Lemma grid_le (x : Q) (f n : Z) :
  x <= inject_Z n * pow2 f ->
  inject_Z (round_half_even (x / pow2 f)) * pow2 f <= inject_Z n * pow2 f.
Proof.
  intros H. pose proof (pow2_pos f) as Hp.
  apply Qmult_le_r; [exact Hp|]. rewrite <- Zle_Qle. apply rhe_le.
  apply Qle_shift_div_r; [exact Hp | exact H].
Qed.

Lemma grid_ge (x : Q) (f n : Z) :
  inject_Z n * pow2 f <= x ->
  inject_Z n * pow2 f <= inject_Z (round_half_even (x / pow2 f)) * pow2 f.
Proof.
  intros H. pose proof (pow2_pos f) as Hp.
  apply Qmult_le_r; [exact Hp|]. rewrite <- Zle_Qle. apply rhe_ge.
  apply Qle_shift_div_l; [exact Hp | exact H].
Qed.

Lemma grid_lower (x : Q) (f : Z) :
  x - pow2 f * (1 # 2) <= inject_Z (round_half_even (x / pow2 f)) * pow2 f.
Proof.
  pose proof (pow2_pos f) as Hp. pose proof (rhe_lower (x / pow2 f)) as H.
  apply (Qmult_le_r _ _ (pow2 f) Hp) in H.
  assert (E : (x / pow2 f - (1 # 2)) * pow2 f == x - pow2 f * (1 # 2))
    by (field; intros E; rewrite E in Hp; discriminate).
  rewrite E in H. exact H.
Qed.

Lemma pow2_grid (f e : Z) : (f <= e)%Z -> pow2 e == inject_Z (2 ^ (e - f)) * pow2 f.
Proof.
  intros H. rewrite <- (pow2_Z (e - f)) by lia. rewrite <- pow2_add.
  replace (e - f + f)%Z with e by lia. reflexivity.
Qed.

Lemma to_double_mono (x y : Q) : 0 < x -> x <= y -> to_double x <= to_double y.
Proof.
  intros Hx Hxy. assert (Hy : 0 < y) by lra.
  pose proof (mag_mono x y Hx Hxy) as Hm.
  unfold to_double, fexp.
  destruct (Z.eq_dec (Z.max (mag x - 53) (-1074)) (Z.max (mag y - 53) (-1074))) as [E|N].
  - rewrite E. set (f := Z.max (mag y - 53) (-1074)).
    apply Qmult_le_r; [apply pow2_pos|]. rewrite <- Zle_Qle. apply rhe_mono.
    apply Qmult_le_r; [apply Qinv_lt_0_compat, pow2_pos|]. exact Hxy.
  - set (fx := Z.max (mag x - 53) (-1074)) in *.
    set (fy := Z.max (mag y - 53) (-1074)) in *.
    assert (Hfy : fy = (mag y - 53)%Z) by lia.
    set (P := pow2 (mag y - 1)).
    apply Qle_trans with P.
    + destruct (mag_pos_spec x Hx) as [_ Hx2].
      assert (HP : P == inject_Z (2 ^ (mag y - 1 - fx)) * pow2 fx) by (apply pow2_grid; lia).
      rewrite HP. apply grid_le. rewrite <- HP.
      apply Qlt_le_weak, Qlt_le_trans with (pow2 (mag x)); [exact Hx2|].
      apply pow2_le. lia.
    + destruct (mag_pos_spec y Hy) as [Hy1 _].
      assert (HP : P == inject_Z (2 ^ (mag y - 1 - fy)) * pow2 fy) by (apply pow2_grid; lia).
      rewrite HP. apply grid_ge. rewrite <- HP. exact Hy1.
Qed.

Lemma to_double_float (x : Q) : is_float x -> 0 < x -> to_double x == x.
Proof.
  intros (m & e & Hm & He & Ex) Hx.
  assert (Hm0 : (0 < m)%Z).
  { rewrite Ex in Hx. pose proof (pow2_pos e) as Hp.
    destruct (Z_lt_le_dec 0 m) as [|Hle]; [assumption|].
    exfalso. assert (inject_Z m <= 0) by (change 0 with (inject_Z 0); rewrite <- Zle_Qle; exact Hle).
    assert (inject_Z m * pow2 e <= 0).
    { rewrite <- (Qmult_0_l (pow2 e)). apply Qmult_le_r; [exact Hp | assumption]. }
    lra. }
  assert (Hf : (fexp x <= e)%Z).
  { unfold fexp. assert (mag x <= e + 53)%Z; [|lia].
    apply mag_le; [exact Hx|]. rewrite Ex, pow2_add, Qmult_comm, (pow2_Z 53) by lia.
    apply Qmult_lt_l; [apply pow2_pos|]. rewrite <- Zlt_Qlt. lia. }
  unfold to_double. set (f := fexp x) in *.
  assert (Hy : x / pow2 f == inject_Z (m * 2 ^ (e - f))).
  { rewrite Ex, (pow2_grid f e Hf), inject_Z_mult. field.
    intros E. pose proof (pow2_pos f). rewrite E in H. discriminate. }
  rewrite (rhe_Qeq _ _ Hy), rhe_int, inject_Z_mult, Ex, (pow2_grid f e Hf). ring.
Qed.

Lemma to_double_is_float (x : Q) : 0 < x -> (mag x <= 1023)%Z -> is_float (to_double x).
Proof.
  intros Hx Hm. unfold to_double. set (f := fexp x).
  assert (Hf : (-1074 <= f <= 970)%Z) by (unfold f, fexp; lia).
  assert (Hf2 : (mag x <= f + 53)%Z) by (unfold f, fexp; lia).
  set (M := round_half_even (x / pow2 f)).
  assert (HM : (0 <= M <= 2 ^ 53)%Z).
  { split.
    - apply rhe_ge. apply Qle_shift_div_l; [apply pow2_pos|]. rewrite Qmult_0_l. lra.
    - apply rhe_le. apply Qle_shift_div_r; [apply pow2_pos|].
      destruct (mag_pos_spec x Hx) as [_ H2].
      rewrite <- (pow2_Z 53), <- pow2_add by lia.
      apply Qlt_le_weak, Qlt_le_trans with (pow2 (mag x)); [exact H2|].
      apply pow2_le. lia. }
  destruct (Z.eq_dec M (2 ^ 53)) as [E|N].
  - exists (2 ^ 52)%Z, (f + 1)%Z. split; [lia|]. split; [lia|].
    rewrite E, pow2_add. change (pow2 1) with (2 # 1).
    replace (2 ^ 53)%Z with (2 ^ 52 * 2)%Z by reflexivity.
    rewrite inject_Z_mult. ring.
  - exists M, f. split; [lia|]. split; [lia|]. reflexivity.
Qed.

Lemma to_double_rel_error (x : Q) :
  pow2 (-1022) <= x -> x - x * (1 # 9007199254740992) <= to_double x.
Proof.
  intros H. assert (Hx : 0 < x) by (pose proof (pow2_pos (-1022)); lra).
  pose proof (mag_ge x (-1022) Hx H) as Hm.
  unfold to_double. assert (Hf : fexp x = (mag x - 53)%Z) by (unfold fexp; lia).
  rewrite Hf. pose proof (grid_lower x (mag x - 53)) as Hg.
  destruct (mag_pos_spec x Hx) as [H1 _].
  assert (E : pow2 (mag x - 53) == pow2 (mag x - 1) * (1 # 4503599627370496)).
  { replace (mag x - 53)%Z with (mag x - 1 + (-52))%Z by lia. rewrite pow2_add. reflexivity. }
  assert (H3 : pow2 (mag x - 1) * (1 # 4503599627370496) <= x * (1 # 4503599627370496))
    by (apply Qmult_le_r; [reflexivity | exact H1]).
  lra.
Qed.

Lemma float_grid (x : Q) (k : Z) :
  is_float x -> pow2 k <= x -> exists m, x == inject_Z m * pow2 (k - 52).
Proof.
  intros (M & e & HM & He & Ex) Hk.
  assert (Hlt : x < pow2 (e + 53)).
  { rewrite Ex, pow2_add, Qmult_comm, (pow2_Z 53) by lia.
    apply Qmult_lt_l; [apply pow2_pos|]. rewrite <- Zlt_Qlt. lia. }
  assert (Hke : (k - 52 <= e)%Z) by (assert (k < e + 53)%Z by (apply pow2_lt_inv; lra); lia).
  exists (M * 2 ^ (e - (k - 52)))%Z.
  rewrite Ex, (pow2_grid (k - 52) e Hke), inject_Z_mult. ring.
Qed.

Lemma round2_num_Qeq (x y : Q) : x == y -> round2_num x = round2_num y.
Proof. intros H. unfold round2_num. apply rhe_Qeq. rewrite H. reflexivity. Qed.

Lemma backoff_Qeq (x y : Q) : x == y -> backoff x == backoff y.
Proof.
  intros H. unfold backoff, round2.
  assert (Ep : to_double (x * (3 # 2)) == to_double (y * (3 # 2)))
    by (apply to_double_Qeq; rewrite H; reflexivity).
  assert (Eq : py_min (to_double (x * (3 # 2))) 10 == py_min (to_double (y * (3 # 2))) 10).
  { unfold py_min. destruct (Qlt_le_dec 10 (to_double (x * (3 # 2))));
      destruct (Qlt_le_dec 10 (to_double (y * (3 # 2)))); try reflexivity; lra. }
  rewrite (round2_num_Qeq _ _ Eq). reflexivity.
Qed.

Lemma lit_0_01_value : lit_0_01 == 5764607523034235 # 576460752303423488.
Proof. vm_compute. reflexivity. Qed.

Lemma backoff_near_lit (tb : Q) :
  is_float tb -> lit_0_01 <= tb -> tb < 2500000000000001 # 250000000000000000 ->
  tb <= backoff tb.
Proof.
  intros Hf Hlo Hhi.
  destruct (float_grid tb (-7) Hf) as [m Em].
  { apply Qle_trans with lit_0_01; [vm_compute; discriminate | exact Hlo]. }
  replace (-7 - 52)%Z with (-59)%Z in Em by reflexivity.
  assert (E59 : pow2 (-59) == 1 # 576460752303423488) by reflexivity.
  rewrite E59 in Em. rewrite lit_0_01_value in Hlo.
  rewrite Em in Hlo, Hhi.
  assert (Hm : (5764607523034235 <= m <= 5764607523034237)%Z).
  { unfold Qle, Qlt in Hlo, Hhi. simpl in Hlo, Hhi. lia. }
  rewrite (backoff_Qeq _ _ Em), Em.
  assert (Hc : m = 5764607523034235%Z \/ m = 5764607523034236%Z \/ m = 5764607523034237%Z) by lia.
  destruct Hc as [ -> | [ -> | -> ] ]; vm_compute; discriminate.
Qed.

Lemma backoff_bounds (tb : Q) :
  is_float tb -> lit_0_01 <= tb <= 10 ->
  tb <= backoff tb <= 10 /\ is_float (backoff tb).
Proof.
  intros Hf [Hlo Hhi].
  assert (Hl : 1 # 100 <= lit_0_01) by (vm_compute; discriminate).
  assert (Htb : 0 < tb) by lra.
  assert (Hp : tb <= to_double (tb * (3 # 2))).
  { rewrite <- (to_double_float tb Hf Htb) at 1. apply to_double_mono; lra. }
  unfold backoff, round2.
  set (p := to_double (tb * (3 # 2))) in *.
  set (q := py_min p 10).
  assert (Hq : tb <= q <= 10) by (unfold q, py_min; destruct (Qlt_le_dec 10 p); lra).
  set (k := round2_num q).
  assert (Hk1 : q * 100 - (1 # 2) <= inject_Z k) by apply rhe_lower.
  assert (Hk2 : (k <= 1000)%Z) by (apply rhe_le; unfold inject_Z; lra).
  assert (Hk0 : (0 < k)%Z).
  { assert (H0 : inject_Z 0 < inject_Z k) by (unfold inject_Z at 1; lra).
    rewrite <- Zlt_Qlt in H0. exact H0. }
  assert (Ek : k # 100 == inject_Z k * (1 # 100)) by (unfold Qeq; simpl; lia).
  assert (Hk2' : inject_Z k <= 1000) by (change 1000 with (inject_Z 1000); rewrite <- Zle_Qle; exact Hk2).
  assert (Hkpos : 0 < k # 100) by (unfold Qlt; simpl; lia).
  assert (Hk10 : k # 100 <= 10) by (rewrite Ek; lra).
  split; [split|].
  - destruct (Qlt_le_dec tb (2500000000000001 # 250000000000000000)) as [Hs|Hs].
    + exact (backoff_near_lit tb Hf Hlo Hs).
    + rewrite <- (to_double_float tb Hf Htb) at 1. apply to_double_mono; [exact Htb|].
      rewrite Ek. destruct (Qlt_le_dec 10 p) as [H10|H10].
      * assert (Hq' : q == 10) by (unfold q, py_min; destruct (Qlt_le_dec 10 p); [reflexivity | lra]).
        assert (H1000 : (1000 <= k)%Z) by (apply rhe_ge; rewrite Hq'; unfold inject_Z; lra).
        assert (H1 : inject_Z 1000 <= inject_Z k) by (rewrite <- Zle_Qle; exact H1000).
        unfold inject_Z at 1 in H1. lra.
      * assert (Hq' : q == p) by (unfold q, py_min; destruct (Qlt_le_dec 10 p); [lra | reflexivity]).
        assert (He : tb * (3 # 2) - tb * (3 # 2) * (1 # 9007199254740992) <= p).
        { apply to_double_rel_error. apply Qle_trans with (1 # 100); [vm_compute; discriminate | lra]. }
        lra.
  - apply Qle_trans with (to_double 10); [apply to_double_mono; assumption|].
    vm_compute. discriminate.
  - apply to_double_is_float; [exact Hkpos|].
    assert (mag (k # 100) <= 4)%Z; [|lia].
    apply mag_le; [exact Hkpos|]. apply Qle_lt_trans with 10; [exact Hk10 | reflexivity].
Qed.

Lemma pause_at_least_30 (tb : Q) : 30 <= pause tb.
Proof.
  unfold pause, py_max. destruct (Qlt_le_dec 30 tb); lra.
Qed.

Variable show_date : Z -> string.
Variable parse_date : string -> option (option Z).
Variable endpoint : string -> option (list table).
Variable df_index : nat.

Local Abbreviation stp := (step show_date parse_date endpoint df_index).
Local Abbreviation lp := (loop show_date parse_date endpoint df_index).

Lemma step_delay (i n : nat) (gid : string) (acc : table) (tb : Q) :
  is_float tb -> lit_0_01 <= tb <= 10 ->
  is_float (snd (snd (stp i n gid (acc, tb)))) /\
  tb <= snd (snd (stp i n gid (acc, tb))) <= 10.
Proof.
  intros Hf H. unfold step.
  destruct (fetch_table show_date endpoint df_index gid); simpl;
    [split; [exact Hf | lra] |].
  destruct (backoff_bounds tb Hf H) as [Hb Hbf]. split; [exact Hbf | exact Hb].
Qed.

Lemma loop_delay (i n : nat) (l : list string) (acc : table) (tb : Q) :
  is_float tb -> lit_0_01 <= tb <= 10 ->
  tb <= snd (snd (lp i n l (acc, tb))) <= 10.
Proof.
  revert i acc tb. induction l as [|gid l IH]; intros i acc tb Hf H; [simpl; lra|].
  cbn [loop]. pose proof (step_delay i n gid acc tb Hf H) as [Hf' Hs].
  destruct (stp i n gid (acc, tb)) as [ev [acc' tb']]. cbn [fst snd] in Hs, Hf'.
  assert (H' : lit_0_01 <= tb' <= 10) by lra.
  pose proof (IH (S i) acc' tb' Hf' H') as Hl.
  destruct (lp (S i) n l (acc', tb')) as [ev' [acc'' tb'']].
  cbn [fst snd] in *. lra.
Qed.

(** C10 (amended): the delay is raised to the float [0.01] at entry and
    otherwise kept, with no upper clamp; the pause after a failure is at
    least 30 seconds; each failure sets the delay to the float
    [round(min(tb * 1.5, 10.0), 2)], which for a float delay in
    [[0.01, 10]] is again a float in [[0.01, 10]] and not smaller, so over
    any stretch of the loop started with such a delay the delay never
    decreases and never exceeds 10. *)
Theorem request_delay_bounds :
  (forall tb, lit_0_01 <= clamp_buffer tb) /\
  (forall tb, lit_0_01 <= tb -> clamp_buffer tb = tb) /\
  (forall tb, 30 <= pause tb) /\
  (forall tb, is_float tb -> lit_0_01 <= tb <= 10 ->
     tb <= backoff tb <= 10 /\ is_float (backoff tb)) /\
  (forall i n l acc tb, is_float tb -> lit_0_01 <= tb <= 10 ->
     tb <= snd (snd (lp i n l (acc, tb))) <= 10).
Proof.
  split; [|split; [|split; [|split]]].
  - intros tb. unfold clamp_buffer. destruct (Qlt_le_dec tb lit_0_01); lra.
  - intros tb H. unfold clamp_buffer.
    destruct (Qlt_le_dec tb lit_0_01); [lra | reflexivity].
  - exact pause_at_least_30.
  - exact backoff_bounds.
  - intros. apply loop_delay; assumption.
Qed.

End DelayProps.

Lemma request_delay_bounds_witness :
  is_float (to_double (3 # 5)) /\
  (to_double (3 # 5) <= backoff (to_double (3 # 5)) <= 10)%Q /\
  clamp_buffer (to_double (3 # 5)) = to_double (3 # 5).
Proof.
  destruct (request_delay_bounds Z_to_string (fun _ => None) (fun _ => None) 0)
    as [_ [Hc [_ [Hb _]]]].
  assert (Hf : is_float (to_double (3 # 5))).
  { exists 5404319552844595%Z, (-53)%Z. split; [reflexivity|]. split; [split; discriminate|].
    vm_compute. reflexivity. }
  split; [exact Hf|]. split.
  - apply (Hb _ Hf). split; vm_compute; discriminate.
  - apply Hc. vm_compute. discriminate.
Defined.

(** C10 (as stated): a delay of 20 seconds is used as given (above 10),
    and after a failure it drops to 10: the pauses of the run are 20, 30,
    then 10. *)
Lemma delay_above_cap_then_lowered :
  let ep := fun g : string =>
    if String.eqb g "g2" then None
    else Some [mk_table ["gameId"; "pts"] [[CStr g; CNum 1]]] in
  option_map (fun l => map Qred (sleeps l))
    (run Z_to_string (fun _ => None) ep 0 ["g1"; "g2"; "g3"] None None 20) =
  Some [20%Q; 30%Q; 10%Q].
Proof. vm_compute. reflexivity. Qed.

(** ** Merging *)

Lemma las_app (s t : string) :
  list_ascii_of_string (s ++ t) = list_ascii_of_string s ++ list_ascii_of_string t.
Proof. induction s as [|a s IH]; simpl; [reflexivity | now rewrite IH]. Qed.

Lemma append_inj_tail (s1 s2 t : string) : (s1 ++ t)%string = (s2 ++ t)%string -> s1 = s2.
Proof.
  intros E. apply (f_equal list_ascii_of_string) in E. rewrite !las_app in E.
  apply app_inv_tail in E.
  rewrite <- (string_of_list_ascii_of_string s1), <- (string_of_list_ascii_of_string s2), E.
  reflexivity.
Qed.

Lemma ends_with_app (sfx s : string) : ends_with sfx (s ++ sfx) = true.
Proof.
  unfold ends_with. rewrite las_app, length_app.
  set (ls := list_ascii_of_string s). set (lx := list_ascii_of_string sfx).
  replace (List.length ls + List.length lx - List.length lx) with (List.length ls) by lia.
  rewrite skipn_app, skipn_all, Nat.sub_diag. simpl.
  destruct (list_eq_dec ascii_dec lx lx) as [_|N]; [|now destruct N].
  rewrite andb_true_r. apply Nat.leb_le. lia.
Qed.

Lemma trad_adv_differ (s1 s2 : string) : (s1 ++ "_trad")%string <> (s2 ++ "_adv")%string.
Proof.
  intros E. apply (f_equal list_ascii_of_string) in E. rewrite !las_app in E.
  apply (f_equal (@rev ascii)) in E. rewrite !rev_app_distr in E.
  simpl in E. discriminate E.
Qed.

Lemma key_eqb_eq (k1 k2 : list cell) : key_eqb k1 k2 = true <-> k1 = k2.
Proof. unfold key_eqb. destruct (list_eq_dec cell_eq_dec k1 k2); split; congruence. Qed.

Lemma NoDup_map_on {A B : Type} (f : A -> B) (l : list A) :
  (forall x y, In x l -> In y l -> f x = f y -> x = y) -> NoDup l -> NoDup (map f l).
Proof.
  intros Hinj Hl. induction Hl as [|a l Ha Hl IH]; simpl; constructor.
  - intros Hin. apply in_map_iff in Hin as [y [Ey Hy]].
    assert (y = a) by (apply Hinj; simpl; auto). subst. contradiction.
  - apply IH. intros x y Hx Hy. apply Hinj; simpl; auto.
Qed.

Lemma suffix_col_inj (sh : list string) (sfx : string) (cs : list string) :
  (forall c, In c cs -> ends_with sfx c = false) ->
  forall x y, In x cs -> In y cs -> suffix_col sh sfx x = suffix_col sh sfx y -> x = y.
Proof.
  intros Hs x y Hx Hy. unfold suffix_col.
  destruct (mem x sh), (mem y sh); intros E.
  - exact (append_inj_tail _ _ _ E).
  - pose proof (Hs y Hy) as F. rewrite <- E, ends_with_app in F. discriminate.
  - pose proof (Hs x Hx) as F. rewrite E, ends_with_app in F. discriminate.
  - exact E.
Qed.

Lemma in_nonkey_cols (keys : list string) (t : table) (c : string) :
  In c (nonkey_cols keys t) <-> In c (columns t) /\ ~ In c keys.
Proof.
  unfold nonkey_cols. rewrite filter_In, negb_true_iff.
  split; intros [H1 H2]; split; auto.
  - intros Hk. apply mem_In in Hk. congruence.
  - destruct (mem c keys) eqn:M; [|reflexivity]. apply mem_In in M. contradiction.
Qed.

Lemma key_not_suffixed (keys sh : list string) (t : table) (sfx a c : string) :
  In a keys -> In c (nonkey_cols keys t) -> ends_with sfx a = false ->
  a <> suffix_col sh sfx c.
Proof.
  intros Ha Hc Hs E. apply in_nonkey_cols in Hc as [_ Hc].
  unfold suffix_col in E. destruct (mem c sh).
  - subst a. rewrite ends_with_app in Hs. discriminate.
  - subst. contradiction.
Qed.

Lemma firstn_app_len {A : Type} (l x : list A) (n : nat) :
  List.length l = n -> firstn n (l ++ x) = l.
Proof.
  revert n. induction l as [|a l IH]; intros [|n] E; simpl in *; try discriminate;
    [reflexivity | now rewrite IH by lia].
Qed.

Lemma firstn_row_key (keys cols : list string) (r x : row) :
  firstn (List.length keys) (row_key keys cols r ++ x) = row_key keys cols r.
Proof. apply firstn_app_len. unfold row_key. apply length_map. Qed.

Lemma existsb_map' {A B : Type} (f : B -> bool) (g : A -> B) (l : list A) :
  existsb f (map g l) = existsb (fun x => f (g x)) l.
Proof. induction l as [|a l IH]; simpl; [reflexivity | now rewrite IH]. Qed.

Lemma filter_unique_key {A : Type} (ak : A -> list cell) (l : list A) (k : list cell) :
  NoDup (map ak l) ->
  filter (fun s => key_eqb (ak s) k) l = [] \/
  exists s, filter (fun s => key_eqb (ak s) k) l = [s].
Proof.
  induction l as [|a l IH]; simpl; intros Hn; [now left|].
  inversion Hn as [|x y Ha Hl]; subst.
  destruct (key_eqb (ak a) k) eqn:E.
  - right. exists a. f_equal.
    apply key_eqb_eq in E. subst k.
    destruct (filter (fun s => key_eqb (ak s) (ak a)) l) as [|b m] eqn:F; [reflexivity|].
    exfalso. assert (Hb : In b (filter (fun s => key_eqb (ak s) (ak a)) l))
      by (rewrite F; left; reflexivity).
    apply filter_In in Hb as [Hb Eb]. apply key_eqb_eq in Eb.
    apply Ha. rewrite <- Eb. now apply in_map.
  - now apply IH.
Qed.

Section MergeProps.

Variable keys : list string.
Variables trad adv : table.

Local Abbreviation tk := (row_key keys (columns trad)).
Local Abbreviation ak := (row_key keys (columns adv)).

Lemma merge_keys_left (l : list row) :
  NoDup (map ak (rows adv)) ->
  map (firstn (List.length keys))
    (flat_map (fun r =>
      match filter (fun s => key_eqb (ak s) (tk r)) (rows adv) with
      | [] => [tk r ++ row_key (nonkey_cols keys trad) (columns trad) r
                  ++ repeat CNull (List.length (nonkey_cols keys adv))]
      | ms => map (fun s => tk r ++ row_key (nonkey_cols keys trad) (columns trad) r
                              ++ row_key (nonkey_cols keys adv) (columns adv) s) ms
      end) l) = map tk l.
Proof.
  intros Hu. induction l as [|r l IH]; [reflexivity|].
  cbn [flat_map]. rewrite map_app, IH.
  destruct (filter_unique_key ak (rows adv) (tk r) Hu) as [F|[s F]]; rewrite F;
    simpl; now rewrite firstn_row_key.
Qed.

Lemma merge_columns_nodup :
  NoDup keys -> NoDup (columns trad) -> NoDup (columns adv) ->
  (forall c, In c (keys ++ columns trad ++ columns adv) ->
     ends_with "_trad" c = false /\ ends_with "_adv" c = false) ->
  NoDup (columns (merge_boxscores keys trad adv)).
Proof.
  intros Hk Ht Ha Hs. simpl.
  set (sh := shared_nonkey keys trad adv).
  assert (Hst : forall c, In c (nonkey_cols keys trad) ->
            ends_with "_trad" c = false /\ ends_with "_adv" c = false).
  { intros c Hc. apply in_nonkey_cols in Hc as [Hc _]. apply Hs.
    apply in_or_app. right. apply in_or_app. now left. }
  assert (Hsa : forall c, In c (nonkey_cols keys adv) ->
            ends_with "_trad" c = false /\ ends_with "_adv" c = false).
  { intros c Hc. apply in_nonkey_cols in Hc as [Hc _]. apply Hs.
    apply in_or_app. right. apply in_or_app. now right. }
  assert (Hsk : forall c, In c keys ->
            ends_with "_trad" c = false /\ ends_with "_adv" c = false).
  { intros c Hc. apply Hs. apply in_or_app. now left. }
  apply NoDup_app; [exact Hk | apply NoDup_app | ].
  - apply NoDup_map_on; [|now apply NoDup_filter].
    apply suffix_col_inj. intros c Hc. now apply Hst.
  - apply NoDup_map_on; [|now apply NoDup_filter].
    apply suffix_col_inj. intros c Hc. now apply Hsa.
  - intros a Ha1 Ha2. apply in_map_iff in Ha1 as [c [<- Hc]].
    apply in_map_iff in Ha2 as [d [Ed Hd]].
    pose proof (Hst c Hc) as [Hc1 Hc2]. pose proof (Hsa d Hd) as [Hd1 Hd2].
    unfold suffix_col in Ed.
    destruct (mem d sh) eqn:Md, (mem c sh) eqn:Mc.
    + exact (trad_adv_differ c d (eq_sym Ed)).
    + rewrite <- Ed, ends_with_app in Hc2. discriminate.
    + rewrite Ed, ends_with_app in Hd1. discriminate.
    + subst d. apply in_nonkey_cols in Hd as [Hd _].
      assert (M : mem c sh = true).
      { apply mem_In. unfold sh, shared_nonkey. apply filter_In.
        split; [exact Hc | now apply mem_In]. }
      congruence.
  - intros a Hak HAB. apply in_app_or in HAB as [HA|HB].
    + apply in_map_iff in HA as [c [Ec Hc]].
      exact (key_not_suffixed keys sh trad "_trad" a c Hak Hc (proj1 (Hsk a Hak)) (eq_sym Ec)).
    + apply in_map_iff in HB as [c [Ec Hc]].
      exact (key_not_suffixed keys sh adv "_adv" a c Hak Hc (proj2 (Hsk a Hak)) (eq_sym Ec)).
Qed.

Lemma merge_keys :
  NoDup (map ak (rows adv)) ->
  map (firstn (List.length keys)) (rows (merge_boxscores keys trad adv)) =
  key_union (map tk (rows trad)) (map ak (rows adv)).
Proof.
  intros Hu. unfold merge_boxscores. cbv zeta. cbn [rows]. rewrite map_app.
  rewrite merge_keys_left by exact Hu. unfold key_union. f_equal.
  rewrite map_map, filter_map_swap.
  transitivity (map ak (filter (fun s => negb (existsb (fun r => key_eqb (ak s) (tk r)) (rows trad)))
                         (rows adv))).
  - apply map_ext. intros s. apply firstn_row_key.
  - f_equal. apply filter_ext. intros s. now rewrite existsb_map'.
Qed.

Lemma key_union_nodup (k1 k2 : list (list cell)) :
  NoDup k1 -> NoDup k2 -> NoDup (key_union k1 k2).
Proof.
  intros H1 H2. unfold key_union. apply NoDup_app; [exact H1 | now apply NoDup_filter |].
  intros a Ha1 Ha2. apply filter_In in Ha2 as [_ Ha2]. apply negb_true_iff in Ha2.
  assert (existsb (key_eqb a) k1 = true).
  { apply existsb_exists. exists a. split; [exact Ha1 | now apply key_eqb_eq]. }
  congruence.
Qed.

(** C8 (amended): when the key columns and the columns of each dataset
    are distinct, no column name (key or not) already ends in [_trad] or
    [_adv], and each dataset has at most one row per key, the merge has no
    two columns of the same name, the keys of its rows are exactly the
    traditional keys followed by the advanced keys not among them (no key
    is lost, none is repeated), and its row count is the size of that
    union of keys. *)
Theorem merge_boxscores_outer_join :
  NoDup keys -> NoDup (columns trad) -> NoDup (columns adv) ->
  (forall c, In c (keys ++ columns trad ++ columns adv) ->
     ends_with "_trad" c = false /\ ends_with "_adv" c = false) ->
  NoDup (map tk (rows trad)) -> NoDup (map ak (rows adv)) ->
  NoDup (columns (merge_boxscores keys trad adv)) /\
  map (firstn (List.length keys)) (rows (merge_boxscores keys trad adv)) =
    key_union (map tk (rows trad)) (map ak (rows adv)) /\
  NoDup (key_union (map tk (rows trad)) (map ak (rows adv))) /\
  List.length (rows (merge_boxscores keys trad adv)) =
    List.length (key_union (map tk (rows trad)) (map ak (rows adv))).
Proof.
  intros Hk Ht Ha Hs Hut Hua.
  split; [now apply merge_columns_nodup|].
  split; [now apply merge_keys|].
  split; [now apply key_union_nodup|].
  rewrite <- merge_keys by exact Hua. symmetry. apply length_map.
Qed.

End MergeProps.

Lemma merge_boxscores_outer_join_witness :
  NoDup (columns (merge_boxscores ["gameId"; "personId"]
    (mk_table ["gameId"; "personId"; "pts"; "min"]
       [[CStr "1"; CNum 5; CNum 10; CNum 30]; [CStr "1"; CNum 6; CNum 3; CNum 12]])
    (mk_table ["gameId"; "personId"; "pts"; "ortg"]
       [[CStr "1"; CNum 5; CNum 11; CNum 99]; [CStr "1"; CNum 7; CNum 0; CNum 80]]))) /\
  List.length (rows (merge_boxscores ["gameId"; "personId"]
    (mk_table ["gameId"; "personId"; "pts"; "min"]
       [[CStr "1"; CNum 5; CNum 10; CNum 30]; [CStr "1"; CNum 6; CNum 3; CNum 12]])
    (mk_table ["gameId"; "personId"; "pts"; "ortg"]
       [[CStr "1"; CNum 5; CNum 11; CNum 99]; [CStr "1"; CNum 7; CNum 0; CNum 80]]))) = 3.
Proof.
  destruct (merge_boxscores_outer_join ["gameId"; "personId"]
    (mk_table ["gameId"; "personId"; "pts"; "min"]
       [[CStr "1"; CNum 5; CNum 10; CNum 30]; [CStr "1"; CNum 6; CNum 3; CNum 12]])
    (mk_table ["gameId"; "personId"; "pts"; "ortg"]
       [[CStr "1"; CNum 5; CNum 11; CNum 99]; [CStr "1"; CNum 7; CNum 0; CNum 80]]))
    as [H1 [_ [_ H4]]].
  - repeat constructor; simpl; intuition discriminate.
  - repeat constructor; simpl; intuition discriminate.
  - repeat constructor; simpl; intuition discriminate.
  - intros c Hc. simpl in Hc.
    repeat (destruct Hc as [<-|Hc]; [split; reflexivity|]). destruct Hc.
  - vm_compute. repeat constructor; simpl; intuition discriminate.
  - vm_compute. repeat constructor; simpl; intuition discriminate.
  - split; [exact H1 | rewrite H4; vm_compute; reflexivity].
Defined.

(** C8 (as stated): with a key repeated in the traditional dataset the
    merge has two rows while the union of the keys of both datasets has
    one element, and a traditional column already named
    [pts_adv] collides with the suffixed advanced [pts]. *)
Lemma merge_duplicate_key_and_suffix_clash :
  List.length (rows (merge_boxscores ["gameId"; "personId"]
    (mk_table ["gameId"; "personId"; "pts"]
       [[CStr "1"; CNum 5; CNum 10]; [CStr "1"; CNum 5; CNum 12]])
    (mk_table ["gameId"; "personId"; "ortg"] [[CStr "1"; CNum 5; CNum 99]]))) = 2 /\
  List.length (nodup (list_eq_dec cell_eq_dec)
    [[CStr "1"; CNum 5]; [CStr "1"; CNum 5]; [CStr "1"; CNum 5]]) = 1 /\
  columns (merge_boxscores ["gameId"; "personId"]
    (mk_table ["gameId"; "personId"; "pts"; "pts_adv"] [])
    (mk_table ["gameId"; "personId"; "pts"] [])) =
    ["gameId"; "personId"; "pts_trad"; "pts_adv"; "pts_adv"].
Proof. vm_compute. repeat split. Qed.


(* ================================================================== *)
(** * Further properties of the sources *)

(** ** [_read_existing_csv] *)



(** ** [get_game_ids] *)

Lemma unique_from_in (seen l : list string) (x : string) :
  In x (unique_from seen l) <-> In x l /\ ~ In x seen.
Proof.
  revert seen. induction l as [|y l IH]; intros seen; simpl; [tauto|].
  destruct (mem y seen) eqn:M.
  - apply mem_In in M. rewrite IH. split; [tauto|].
    intros [[<-|H] Hn]; [contradiction | auto].
  - simpl. rewrite IH. simpl. split.
    + intros [<-|[H Hn]]; [split; [now left|] | split; [now right | tauto]].
      intros Hin. apply mem_In in Hin. congruence.
    + intros [[<-|H] Hn]; [now left|].
      destruct (String.eqb_spec y x); [now left | right; split; [exact H|]].
      intros [E|E]; [congruence | contradiction].
Qed.

Lemma unique_from_nodup (seen l : list string) : NoDup (unique_from seen l).
Proof.
  revert seen. induction l as [|y l IH]; intros seen; simpl; [constructor|].
  destruct (mem y seen); [apply IH|]. constructor; [|apply IH].
  rewrite unique_from_in. simpl. tauto.
Qed.

(** [get_game_ids] fails exactly when [GAME_ID] is not exactly one column;
    otherwise it returns every [GAME_ID] value of the table as text, each
    once. *)
Theorem get_game_ids_unique (show_date : Z -> string) (games : table) :
  (get_game_ids show_date games = None <->
   count_occ string_dec (columns games) "GAME_ID" <> 1) /\
  (forall ids, get_game_ids show_date games = Some ids ->
     NoDup ids /\
     forall g, In g ids <->
       exists r, In r (rows games) /\
                 g = cell_text show_date (at_col (index_of "GAME_ID" (columns games)) r)).
Proof.
  unfold get_game_ids. split.
  - destruct (Nat.eqb_spec (count_occ string_dec (columns games) "GAME_ID") 1);
      split; congruence.
  - intros ids. destruct (_ =? 1); [|discriminate]. intros E. injection E as <-.
    split; [apply unique_from_nodup|]. intros g. rewrite unique_from_in, in_map_iff.
    split.
    + intros [[r [Er Hr]] _]. exists r. auto.
    + intros [r [Hr Er]]. split; [exists r; auto | simpl; tauto].
Qed.

Lemma get_game_ids_unique_witness :
  get_game_ids Z_to_string
    (mk_table ["GAME_ID"] [[CStr "0022500001"]; [CStr "0022500001"]; [CStr "0022500002"]]) =
    Some ["0022500001"; "0022500002"] /\ NoDup ["0022500001"; "0022500002"].
Proof.
  assert (Hg : get_game_ids Z_to_string
    (mk_table ["GAME_ID"] [[CStr "0022500001"]; [CStr "0022500001"]; [CStr "0022500002"]]) =
    Some ["0022500001"; "0022500002"]) by (vm_compute; reflexivity).
  split; [exact Hg|].
  exact (proj1 (proj2 (get_game_ids_unique Z_to_string _) _ Hg)).
Defined.

Lemma NoDup_skipn' {A : Type} (n : nat) (l : list A) : NoDup l -> NoDup (skipn n l).
Proof.
  intros H. rewrite <- (firstn_skipn n l) in H. exact (NoDup_app_remove_l _ _ H).
Qed.

Lemma In_skipn' {A : Type} (n : nat) (l : list A) (x : A) : In x (skipn n l) -> In x l.
Proof. intros H. rewrite <- (firstn_skipn n l). apply in_or_app. now right. Qed.

Lemma resume_remaining_nodup (game_ids done : list string) (marker : option string) :
  NoDup game_ids ->
  NoDup (resume_remaining game_ids done marker) /\
  forall g, In g (resume_remaining game_ids done marker) -> In g game_ids.
Proof.
  intros H. unfold resume_remaining.
  assert (Hf : NoDup (filter (fun gid => negb (mem gid done)) game_ids))
    by now apply NoDup_filter.
  destruct marker as [m|]; [destruct (mem (strip m) _)|];
    (split; [try apply NoDup_skipn'; exact Hf|]);
    intros g Hg; try apply In_skipn' in Hg; apply filter_In in Hg; tauto.
Qed.

(** Fed with the ids of [get_game_ids] (as [update_all] and the main
    script do), a run fetches no game twice, and only games of the list. *)
Theorem game_ids_fetched_at_most_once
    (show_date : Z -> string) (parse_date : string -> option (option Z))
    (endpoint : string -> option (list table)) (df_index : nat)
    (games : table) (ids : list string) (existing : option table)
    (marker : option string) (tb : Q) (all_data : table) (evs : list event) :
  get_game_ids show_date games = Some ids ->
  read_existing_csv show_date existing = Some all_data ->
  run show_date parse_date endpoint df_index ids existing marker tb = Some evs ->
  NoDup (fetched_ids evs) /\ forall g, In g (fetched_ids evs) -> In g ids.
Proof.
  intros Hg Hr Hrun.
  rewrite (run_fetched show_date parse_date endpoint df_index ids existing marker tb
             all_data evs Hr Hrun).
  apply resume_remaining_nodup.
  exact (proj1 (proj2 (get_game_ids_unique show_date games) ids Hg)).
Qed.

Lemma game_ids_fetched_at_most_once_witness :
  NoDup (fetched_ids [EFetch "0022500001" None; EFetch "0022500002" None]).
Proof.
  assert (Hg : get_game_ids Z_to_string
    (mk_table ["GAME_ID"] [[CStr "0022500001"]; [CStr "0022500002"]; [CStr "0022500001"]]) =
    Some ["0022500001"; "0022500002"]) by (vm_compute; reflexivity).
  assert (Hr : read_existing_csv Z_to_string None = Some (mk_table ["gameId"] []))
    by (vm_compute; reflexivity).
  assert (Hrun : run Z_to_string (fun _ => None) (fun _ => None) 0
    ["0022500001"; "0022500002"] None None (6 # 10) =
    Some [EFetch "0022500001" None; EWriteCsv (mk_table ["gameId"] []);
          EWriteMarker "0022500001"; ESleep 30;
          EFetch "0022500002" None; EWriteCsv (mk_table ["gameId"] []);
          EWriteMarker "0022500002"; ESleep 30;
          EWriteCsv (mk_table ["gameId"] [])]) by (vm_compute; reflexivity).
  exact (proj1 (game_ids_fetched_at_most_once Z_to_string (fun _ => None) (fun _ => None) 0
    _ _ None None (6 # 10) _ _ Hg Hr Hrun)).
Defined.

(** ** The checkpoint schedule *)

Lemma marker_ids_app (a b : list event) : marker_ids (a ++ b) = marker_ids a ++ marker_ids b.
Proof. unfold marker_ids. apply flat_map_app. Qed.

Lemma combine_app' {A B : Type} (l1 l2 : list A) (m1 m2 : list B) :
  List.length l1 = List.length m1 ->
  combine (l1 ++ l2) (m1 ++ m2) = combine l1 m1 ++ combine l2 m2.
Proof.
  revert m1. induction l1 as [|a l1 IH]; intros [|b m1] E; simpl in *;
    try discriminate; [reflexivity|]. f_equal. apply IH. lia.
Qed.

Section ScheduleProps.

Variable show_date : Z -> string.
Variable parse_date : string -> option (option Z).
Variable endpoint : string -> option (list table).
Variable df_index : nat.

Local Abbreviation stp := (step show_date parse_date endpoint df_index).
Local Abbreviation lp := (loop show_date parse_date endpoint df_index).
Local Abbreviation rn := (run show_date parse_date endpoint df_index).
Local Abbreviation ftab := (fetch_table show_date endpoint df_index).

Lemma step_markers_ok (i n : nat) (gid : string) (st : table * Q) :
  ftab gid <> None ->
  marker_ids (fst (stp i n gid st)) = if checkpoint_due i n then [gid] else [].
Proof.
  intros H. destruct st as [acc tb]. unfold step.
  destruct (fetch_table _ _ _ gid); [|congruence].
  destruct (checkpoint_due i n); reflexivity.
Qed.

Lemma loop_markers_ok (i n : nat) (l : list string) (st : table * Q) :
  (forall g, In g l -> ftab g <> None) ->
  marker_ids (fst (lp i n l st)) = checkpoint_ids i n l.
Proof.
  revert i st. induction l as [|gid l IH]; intros i st H; [reflexivity|].
  cbn [loop]. pose proof (step_markers_ok i n gid st (H gid (or_introl eq_refl))) as Hs.
  destruct (stp i n gid st) as [ev st'].
  pose proof (IH (S i) st' (fun g Hg => H g (or_intror Hg))) as Hl.
  destruct (lp (S i) n l st') as [ev' st'']. cbn [fst] in *.
  rewrite marker_ids_app, Hs, Hl. unfold checkpoint_ids. simpl.
  destruct (checkpoint_due i n); reflexivity.
Qed.

Lemma checkpoint_ids_last (l : list string) :
  l <> [] -> last (checkpoint_ids 1 (List.length l) l) ""%string = last l ""%string.
Proof.
  intros Hne. destruct (exists_last Hne) as [l' [x ->]].
  unfold checkpoint_ids. rewrite length_app. simpl List.length.
  rewrite Nat.add_1_r, seq_S, combine_app' by (rewrite length_seq; reflexivity).
  rewrite filter_app, map_app. simpl.
  replace (checkpoint_due (S (List.length l')) (S (List.length l'))) with true
    by (unfold checkpoint_due; now rewrite Nat.eqb_refl, orb_true_r).
  simpl. now rewrite !last_last.
Qed.

(** In a run where every fetch succeeds, the marker is written exactly
    after the games at positions [100, 200, ...] of the remaining list and
    after its last game, so the last marker names the last remaining game. *)
Theorem checkpoint_schedule
    (game_ids : list string) (existing : option table) (marker : option string)
    (tb : Q) (all_data : table) (evs : list event) :
  read_existing_csv show_date existing = Some all_data ->
  rn game_ids existing marker tb = Some evs ->
  let rem := resume_remaining game_ids (done_ids show_date all_data) marker in
  (forall g, In g rem -> ftab g <> None) ->
  marker_ids evs = checkpoint_ids 1 (List.length rem) rem /\
  (rem <> [] -> last (marker_ids evs) ""%string = last rem ""%string).
Proof.
  intros Hr Hrun rem Hok. unfold run in Hrun. rewrite Hr in Hrun. fold rem in Hrun.
  pose proof (loop_markers_ok 1 (List.length rem) rem (all_data, clamp_buffer tb) Hok) as Hl.
  destruct (lp 1 (List.length rem) rem (all_data, clamp_buffer tb)) as [ev [final tb']].
  injection Hrun as <-. cbn [fst] in Hl.
  rewrite marker_ids_app, Hl. simpl. rewrite app_nil_r.
  split; [reflexivity|]. apply checkpoint_ids_last.
Qed.

End ScheduleProps.

Lemma checkpoint_schedule_witness :
  exists evs,
    run Z_to_string (fun _ => None)
      (fun g => Some [mk_table ["gameId"] [[CStr g]]]) 0 ["g1"; "g2"; "g3"] None None 1 =
      Some evs /\ marker_ids evs = ["g3"].
Proof.
  set (ep := fun g : string => Some [mk_table ["gameId"] [[CStr g]]]).
  destruct (run Z_to_string (fun _ => None) ep 0 ["g1"; "g2"; "g3"] None None 1) as [evs|] eqn:E;
    [|vm_compute in E; discriminate].
  exists evs. split; [reflexivity|].
  destruct (checkpoint_schedule Z_to_string (fun _ => None) ep 0 ["g1"; "g2"; "g3"] None None 1
              (mk_table ["gameId"] []) evs ltac:(vm_compute; reflexivity) E) as [H _].
  - intros g Hg. simpl in Hg. destruct Hg as [<-|[<-|[<-|[]]]]; vm_compute; discriminate.
  - rewrite H. vm_compute. reflexivity.
Defined.

(** ** The marker shared by the traditional and advanced runs *)






(** ** Output paths *)

Lemma append_inj_head (t s1 s2 : string) : (t ++ s1)%string = (t ++ s2)%string -> s1 = s2.
Proof. induction t as [|a t IH]; simpl; [tauto|]. intros E. injection E. exact IH. Qed.

Lemma las_inj (s t : string) : list_ascii_of_string s = list_ascii_of_string t -> s = t.
Proof.
  intros E. rewrite <- (string_of_list_ascii_of_string s), <- (string_of_list_ascii_of_string t), E.
  reflexivity.
Qed.

Lemma not_in_app' {A : Type} (x : A) (l m : list A) : ~ In x l -> ~ In x m -> ~ In x (l ++ m).
Proof. intros H1 H2 H. apply in_app_or in H. tauto. Qed.

Lemma skipn_len_app {A : Type} (l m : list A) : skipn (List.length l) (l ++ m) = m.
Proof. induction l; simpl; auto. Qed.

Lemma rfind_go_app (c : ascii) (l m : list ascii) (i : nat) (acc : option nat) :
  rfind_go c (l ++ m) i acc = rfind_go c m (i + List.length l) (rfind_go c l i acc).
Proof.
  revert i acc. induction l as [|x l IH]; intros i acc; simpl.
  - now rewrite Nat.add_0_r.
  - rewrite IH. now replace (i + S (List.length l)) with (S i + List.length l) by lia.
Qed.

Lemma rfind_go_absent (c : ascii) (m : list ascii) (i : nat) (acc : option nat) :
  ~ In c m -> rfind_go c m i acc = acc.
Proof.
  revert i acc. induction m as [|x m IH]; intros i acc H; simpl; [reflexivity|].
  destruct (ascii_dec x c) as [->|N].
  - exfalso. apply H. now left.
  - apply IH. intros Hm. apply H. now right.
Qed.

Lemma rfind_go_present (c : ascii) (l : list ascii) (i : nat) (acc : option nat) :
  In c l -> exists k, rfind_go c l i acc = Some (i + k) /\ ~ In c (skipn (S k) l).
Proof.
  revert i acc. induction l as [|x l IH]; intros i acc H; [destruct H|]. simpl.
  destruct (in_dec ascii_dec c l) as [Hin|Hn].
  - destruct (IH (S i) (if ascii_dec x c then Some i else acc) Hin) as [k [E Hk]].
    exists (S k). rewrite E. split; [f_equal; lia | exact Hk].
  - destruct H as [Hx|H]; [subst x|contradiction]. exists 0.
    rewrite rfind_go_absent by exact Hn.
    destruct (ascii_dec c c) as [_|N]; [|now destruct N].
    split; [f_equal; lia | exact Hn].
Qed.

Lemma basename_no_slash (p : string) : ~ In slash (list_ascii_of_string (basename p)).
Proof.
  unfold basename. cbv zeta. rewrite list_ascii_of_string_of_list_ascii. unfold rfind.
  destruct (in_dec ascii_dec slash (list_ascii_of_string p)) as [H|H].
  - destruct (rfind_go_present slash _ 0 None H) as [k [E Hk]]. rewrite E. exact Hk.
  - rewrite rfind_go_absent by exact H. exact H.
Qed.

Lemma splitext_fst_absent (c : ascii) (p : string) :
  ~ In c (list_ascii_of_string p) -> ~ In c (list_ascii_of_string (fst (splitext p))).
Proof.
  intros H. unfold splitext. cbv zeta.
  destruct (rfind dot _) as [d|]; [destruct (_ && _)|]; simpl; try exact H.
  rewrite list_ascii_of_string_of_list_ascii. intros Hi. apply H.
  rewrite <- (firstn_skipn d (list_ascii_of_string p)). apply in_or_app. now left.
Qed.

Lemma ends_with_slash (a : string) :
  ends_with "/" a = true -> exists l, list_ascii_of_string a = l ++ [slash].
Proof.
  unfold ends_with. cbv zeta. intros H. apply andb_prop in H as [_ H].
  destruct (list_eq_dec _ _ _) as [E|]; [|discriminate].
  exists (firstn (List.length (list_ascii_of_string a) - 1) (list_ascii_of_string a)).
  change (List.length (list_ascii_of_string "/")) with 1 in E.
  rewrite <- (firstn_skipn (List.length (list_ascii_of_string a) - 1) (list_ascii_of_string a)) at 1.
  rewrite E. reflexivity.
Qed.

Lemma py_join_plain (a b : string) :
  (forall c r, list_ascii_of_string b = c :: r -> c <> slash) ->
  py_join a b = if String.eqb a "" || ends_with "/" a then (a ++ b)%string
                else (a ++ "/" ++ b)%string.
Proof.
  intros H. unfold py_join. destruct (list_ascii_of_string b) as [|c r] eqn:E; [reflexivity|].
  destruct (ascii_dec c slash) as [Hc|_]; [exfalso; exact (H c r eq_refl Hc) | reflexivity].
Qed.

Lemma basename_after_slash (p : string) (l m : list ascii) :
  list_ascii_of_string p = l ++ slash :: m -> ~ In slash m -> basename p = string_of_list_ascii m.
Proof.
  intros E Hm. unfold basename. cbv zeta. rewrite E. unfold rfind.
  replace (l ++ slash :: m) with ((l ++ [slash]) ++ m) by now rewrite <- app_assoc.
  rewrite rfind_go_app, rfind_go_absent by exact Hm.
  rewrite rfind_go_app. cbn [rfind_go].
  destruct (ascii_dec slash slash) as [_|N]; [|now destruct N].
  replace (S (0 + List.length l)) with (List.length (l ++ [slash])) by (rewrite length_app; simpl; lia).
  now rewrite skipn_len_app.
Qed.

Lemma basename_py_join (a b : string) :
  ~ In slash (list_ascii_of_string b) -> basename (py_join a b) = b.
Proof.
  intros Hb. rewrite py_join_plain.
  2:{ intros c r E Hc. subst c. apply Hb. rewrite E. now left. }
  destruct (String.eqb a "") eqn:Ea; simpl.
  - apply String.eqb_eq in Ea. subst a. simpl. unfold basename. cbv zeta. unfold rfind.
    rewrite rfind_go_absent by exact Hb. apply string_of_list_ascii_of_string.
  - destruct (ends_with "/" a) eqn:Ee.
    + destruct (ends_with_slash a Ee) as [l El].
      rewrite (basename_after_slash _ l (list_ascii_of_string b)).
      * apply string_of_list_ascii_of_string.
      * rewrite las_app, El, <- app_assoc. reflexivity.
      * exact Hb.
    + rewrite (basename_after_slash _ (list_ascii_of_string a) (list_ascii_of_string b)).
      * apply string_of_list_ascii_of_string.
      * rewrite !las_app. reflexivity.
      * exact Hb.
Qed.

Lemma splitext_csv (m : string) (c : ascii) (r : list ascii) :
  ~ In slash (list_ascii_of_string m) -> list_ascii_of_string m = c :: r -> c <> dot ->
  fst (splitext (m ++ ".csv")) = m.
Proof.
  intros Hs Em Hc. unfold splitext. cbv zeta. rewrite las_app. unfold rfind.
  rewrite !rfind_go_app, (rfind_go_absent slash (list_ascii_of_string m)) by exact Hs.
  cbn [rfind_go list_ascii_of_string].
  unfold slash, dot. cbn -[List.length list_ascii_of_string].
  rewrite ?Nat.add_0_l, ?Nat.sub_0_r.
  rewrite !(firstn_app_len (list_ascii_of_string m) _ _ eq_refl).
  rewrite Em at 1. simpl existsb.
  destruct (ascii_dec c ".") as [E|_]; [exfalso; exact (Hc E)|]. simpl.
  apply string_of_list_ascii_of_string.
Qed.

Lemma splitext_txt (m : string) (c : ascii) (r : list ascii) :
  ~ In slash (list_ascii_of_string m) -> list_ascii_of_string m = c :: r -> c <> dot ->
  fst (splitext (m ++ ".txt")) = m.
Proof.
  intros Hs Em Hc. unfold splitext. cbv zeta. rewrite las_app. unfold rfind.
  rewrite !rfind_go_app, (rfind_go_absent slash (list_ascii_of_string m)) by exact Hs.
  cbn [rfind_go list_ascii_of_string].
  unfold slash, dot. cbn -[List.length list_ascii_of_string].
  rewrite ?Nat.add_0_l, ?Nat.sub_0_r.
  rewrite !(firstn_app_len (list_ascii_of_string m) _ _ eq_refl).
  rewrite Em at 1. simpl existsb.
  destruct (ascii_dec c ".") as [E|_]; [exfalso; exact (Hc E)|]. simpl.
  apply string_of_list_ascii_of_string.
Qed.

Lemma py_join_las_suffix (a b : string) :
  exists pre, list_ascii_of_string (py_join a b) = pre ++ list_ascii_of_string b.
Proof.
  unfold py_join.
  destruct (list_ascii_of_string b) as [|c r] eqn:E;
    [|destruct (ascii_dec c slash); [exists []; now rewrite E|]];
    (destruct (_ || _);
     [exists (list_ascii_of_string a); now rewrite las_app, E
     |exists (list_ascii_of_string a ++ ["/"%char]); rewrite !las_app, E, <- app_assoc; reflexivity]).
Qed.

Lemma out_name_first (s : string) (advanced : bool) :
  forall c r, list_ascii_of_string (mode_label advanced ++ s) = c :: r -> c <> slash /\ c <> dot.
Proof.
  intros c r E. destruct advanced; simpl in E; injection E as <- _; unfold slash, dot;
    split; discriminate.
Qed.

(** The eight CSVs of one segment and season in [update_all] (and any
    calls of [get_historical_boxscores] with the same [out_dir] and
    [season_token]) have pairwise different paths: [out_path] tells
    [playoffs], [advanced] and [team] apart.  No marker path equals an
    output path: one ends in [.txt], the other in [.csv]. *)
Theorem out_path_distinct (out_dir season_token : string) (p a t p' a' t' : bool) :
  (out_path out_dir season_token p a t = out_path out_dir season_token p' a' t' <->
   p = p' /\ a = a' /\ t = t') /\
  forall d tok q u, last_id_path d tok q u <> out_path out_dir season_token p a t.
Proof.
  split.
  - split; [|intros (-> & -> & ->); reflexivity].
    unfold out_path. intros E.
    rewrite !py_join_plain in E by (intros c r Ec; exact (proj1 (out_name_first _ _ c r Ec))).
    assert (E' : (mode_label a ++ "_boxscores_" ++ season_token ++ "_" ++ team_label t
                  ++ p_label p ++ ".csv")%string =
                 (mode_label a' ++ "_boxscores_" ++ season_token ++ "_" ++ team_label t'
                  ++ p_label p' ++ ".csv")%string)
      by (destruct (_ || _); [exact (append_inj_head _ _ _ E)
                              | exact (append_inj_head _ _ _ (append_inj_head _ _ _ E))]).
    clear E. destruct a, a'; try (simpl in E'; discriminate).
    all: apply append_inj_head, append_inj_head, append_inj_head, append_inj_head in E'.
    all: destruct t, t', p, p'; simpl in E'; first [discriminate | auto].
  - intros d tok q u E. unfold last_id_path, out_path in E.
    apply (f_equal list_ascii_of_string) in E.
    destruct (py_join_las_suffix d ("last_game_id_" ++ tok ++ "_" ++ team_label u
                                    ++ p_label q ++ ".txt")) as [pre1 E1].
    destruct (py_join_las_suffix out_dir (mode_label a ++ "_boxscores_" ++ season_token ++ "_"
                                          ++ team_label t ++ p_label p ++ ".csv")) as [pre2 E2].
    rewrite E1, E2, !las_app in E. rewrite !app_assoc in E.
    apply (f_equal (@rev ascii)) in E. rewrite !rev_app_distr in E.
    simpl in E. discriminate.
Qed.

(** [update_boxscores(game_ids, out_csv, ...)] never writes to [out_csv]:
    the two files it writes, the output CSV (which it returns) and the
    marker file, are named after the stem of [out_csv] but always differ
    from [out_csv] itself. *)
Theorem update_boxscores_other_path (out_csv : string) (advanced team : bool) :
  update_out_path out_csv advanced team <> out_csv /\
  update_marker_path out_csv team <> out_csv.
Proof.
  split.
  - unfold update_out_path, out_path. cbv zeta.
    set (tok := fst (splitext (basename out_csv))).
    assert (Htok : ~ In slash (list_ascii_of_string tok))
      by apply splitext_fst_absent, basename_no_slash.
    assert (Etok : tok = fst (splitext (basename out_csv))) by reflexivity.
    clearbody tok.
    set (od := if String.eqb (dirname out_csv) "" then "."%string else dirname out_csv).
    clearbody od.
    set (M := (mode_label advanced ++ "_boxscores_" ++ tok ++ "_" ++ team_label team)%string).
    assert (HN : (mode_label advanced ++ "_boxscores_" ++ tok ++ "_" ++ team_label team
                  ++ p_label false ++ ".csv")%string = (M ++ ".csv")%string).
    { apply las_inj. unfold M. rewrite !las_app, <- !app_assoc. reflexivity. }
    rewrite HN. clear HN.
    assert (HM : ~ In slash (list_ascii_of_string M)).
    { unfold M. rewrite !las_app.
      repeat apply not_in_app'; try exact Htok;
        destruct advanced, team; simpl; unfold slash; intuition discriminate. }
    intros E.
    assert (Hb : basename out_csv = (M ++ ".csv")%string).
    { rewrite <- E. apply basename_py_join. rewrite las_app. apply not_in_app'; [exact HM|].
      simpl. unfold slash. intuition discriminate. }
    assert (HEM : exists c r, list_ascii_of_string M = c :: r)
      by (unfold M; destruct advanced; do 2 eexists; reflexivity).
    destruct HEM as [c [r EM]].
    assert (Hc : c <> dot)
      by (unfold M in EM; exact (proj2 (out_name_first _ advanced c r EM))).
    rewrite Hb, (splitext_csv M c r HM EM Hc) in Etok.
    apply (f_equal (fun s => List.length (list_ascii_of_string s))) in Etok.
    unfold M in Etok. rewrite !las_app, !length_app in Etok.
    destruct advanced; simpl in Etok; lia.
- unfold update_marker_path, last_id_path. cbv zeta.
    set (tok := fst (splitext (basename out_csv))).
    assert (Htok : ~ In slash (list_ascii_of_string tok))
      by apply splitext_fst_absent, basename_no_slash.
    assert (Etok : tok = fst (splitext (basename out_csv))) by reflexivity.
    clearbody tok.
    set (od := if String.eqb (dirname out_csv) "" then "."%string else dirname out_csv).
    clearbody od.
    set (M := ("last_game_id_" ++ tok ++ "_" ++ team_label team)%string).
    assert (HN : ("last_game_id_" ++ tok ++ "_" ++ team_label team
                  ++ p_label false ++ ".txt")%string = (M ++ ".txt")%string).
    { apply las_inj. unfold M. rewrite !las_app, <- !app_assoc. reflexivity. }
    rewrite HN. clear HN.
    assert (HM : ~ In slash (list_ascii_of_string M)).
    { unfold M. rewrite !las_app.
      repeat apply not_in_app'; try exact Htok;
        destruct team; simpl; unfold slash; intuition discriminate. }
    intros E.
    assert (Hb : basename out_csv = (M ++ ".txt")%string).
    { rewrite <- E. apply basename_py_join. rewrite las_app. apply not_in_app'; [exact HM|].
      simpl. unfold slash. intuition discriminate. }
    assert (EM : list_ascii_of_string M = "l"%char :: list_ascii_of_string
                   ("ast_game_id_" ++ tok ++ "_" ++ team_label team)%string)
      by reflexivity.
    assert (Hc : "l"%char <> dot) by (unfold dot; discriminate).
    rewrite Hb, (splitext_txt M _ _ HM EM Hc) in Etok.
    apply (f_equal (fun s => List.length (list_ascii_of_string s))) in Etok.
    unfold M in Etok. rewrite !las_app, !length_app in Etok.
    simpl in Etok. lia.
Qed.

(** ** [get_games] *)

(** A range token whose end year is below its start year (e.g.
    ["2026-2020"]) expands to no season: [get_games] returns an empty
    DataFrame without calling the game finder, [add_game_number] returns
    it unchanged, and [get_game_ids] then raises [KeyError], so
    [update_all] stops before any box score request. *)
Theorem get_games_empty_range_key_error
    (show_date : Z -> string) (coerce_date : cell -> cell)
    (finder : string -> option table) (s : string) (playoffs : bool) :
  Season.season_iter s = Season.Ok [] ->
  exists t,
    get_games show_date coerce_date finder s = Some t /\
    add_game_number coerce_date t playoffs = Some t /\
    get_game_ids show_date t = None.
Proof.
  intros H. exists (mk_table [] []). unfold get_games. rewrite H. simpl.
  repeat split.
Qed.

Lemma get_games_empty_range_key_error_witness :
  get_game_ids Z_to_string (mk_table [] []) = None.
Proof.
  destruct (get_games_empty_range_key_error Z_to_string (fun c => c) (fun _ => None)
              "2026-2020" false ltac:(vm_compute; reflexivity)) as [t [Hg [Ha Hi]]].
  assert (Ht : t = mk_table [] []) by (vm_compute in Hg; congruence).
  rewrite <- Ht. exact Hi.
Defined.

(** ** [reorder_games] *)

Lemma keep_first_nodup : NoDup keep_first.
Proof. unfold keep_first. repeat constructor; simpl; intuition discriminate. Qed.

Lemma at_col_index_of_map (c : string) (cs : list string) (f : string -> cell) :
  In c cs -> at_col (index_of c cs) (map f cs) = f c.
Proof.
  intros H. apply mem_In in H. destruct (index_of_first c cs H) as [E _].
  unfold at_col. apply nth_error_nth. now rewrite nth_error_map, E.
Qed.

(** The column reordering of [get_games] neither loses nor repeats a
    column, keeps the number of rows, and leaves every value under its
    column name. *)
Theorem reorder_games_permutes_columns (games : table) :
  NoDup (columns games) ->
  Permutation (columns (reorder_games games)) (columns games) /\
  List.length (rows (reorder_games games)) = List.length (rows games) /\
  forall c, In c (columns games) ->
    map (at_col (index_of c (columns (reorder_games games)))) (rows (reorder_games games)) =
    map (at_col (index_of c (columns games))) (rows games).
Proof.
  intros Hnd. unfold reorder_games, select_cols. cbv zeta. cbn [columns rows].
  set (ex := filter (fun c => mem c (columns games)) keep_first).
  set (cs := ex ++ filter (fun c => negb (mem c ex)) (columns games)).
  assert (Hin : forall x, In x cs <-> In x (columns games)).
  { intros x. unfold cs. rewrite in_app_iff, filter_In. unfold ex. rewrite filter_In, mem_In.
    split; [intros [[_ H]|[H _]]; exact H|].
    intros H. destruct (mem x (filter (fun c => mem c (columns games)) keep_first)) eqn:E.
    - left. apply mem_In in E. apply filter_In in E as [E1 E2]. split; [exact E1|].
      now apply mem_In.
    - right. now split. }
  split; [|split].
  - apply NoDup_Permutation; [|exact Hnd|exact Hin].
    unfold cs. apply NoDup_app.
    + apply NoDup_filter, keep_first_nodup.
    + now apply NoDup_filter.
    + intros a Ha Hf. apply filter_In in Hf as [_ Hf].
      apply mem_In in Ha. rewrite Ha in Hf. discriminate.
  - apply length_map.
  - intros c Hc. rewrite map_map. apply map_ext. intros r.
    apply (at_col_index_of_map c cs (fun c0 => at_col (index_of c0 (columns games)) r)).
    now apply Hin.
Qed.

Lemma reorder_games_permutes_columns_witness :
  Permutation (columns (reorder_games (mk_table ["x"; "GAME_ID"; "TEAM_ID"] [[CNum 1; CStr "a"; CNum 5]])))
    ["x"; "GAME_ID"; "TEAM_ID"].
Proof.
  exact (proj1 (reorder_games_permutes_columns
                  (mk_table ["x"; "GAME_ID"; "TEAM_ID"] [[CNum 1; CStr "a"; CNum 5]])
                  ltac:(simpl; repeat constructor; simpl; intuition discriminate))).
Defined.

(** ** [add_game_number] *)

Lemma cell_cmp_antisym (a b : cell) : cell_cmp a b = CompOpp (cell_cmp b a).
Proof.
  destruct a, b; simpl; try reflexivity;
    first [apply Z.compare_antisym | apply String.compare_antisym].
Qed.

Lemma lex_cmp_antisym (k1 k2 : list cell) : lex_cmp k1 k2 = CompOpp (lex_cmp k2 k1).
Proof.
  revert k2. induction k1 as [|a k1 IH]; intros [|b k2]; simpl; try reflexivity.
  rewrite (cell_cmp_antisym a b). destruct (cell_cmp b a); simpl; auto.
Qed.

Lemma cell_cmp_refl (a : cell) : cell_cmp a a = Eq.
Proof.
  destruct a; simpl; try apply Z.compare_refl; try reflexivity.
  pose proof (String.compare_antisym s s) as H.
  destruct (String.compare s s); simpl in H; congruence.
Qed.

Lemma lex_cmp_refl (k : list cell) : lex_cmp k k = Eq.
Proof. induction k as [|a k IH]; simpl; [reflexivity|]. now rewrite cell_cmp_refl. Qed.

Lemma insert_by_perm (key : row -> list cell) (r : row) (l : list row) :
  Permutation (insert_by key r l) (r :: l).
Proof.
  induction l as [|x l IH]; simpl; [reflexivity|].
  destruct (lex_cmp (key r) (key x)); try reflexivity.
  rewrite IH. apply perm_swap.
Qed.

Lemma sort_by_perm (key : row -> list cell) (l : list row) : Permutation (sort_by key l) l.
Proof.
  induction l as [|x l IH]; simpl; [reflexivity|].
  rewrite insert_by_perm. now apply perm_skip.
Qed.

Lemma insert_by_sorted (key : row -> list cell) (r : row) (l : list row) :
  Sorted (fun a b => lex_cmp (key a) (key b) <> Gt) l ->
  Sorted (fun a b => lex_cmp (key a) (key b) <> Gt) (insert_by key r l).
Proof.
  induction l as [|x l IH]; intros H; simpl; [repeat constructor|].
  destruct (lex_cmp (key r) (key x)) eqn:E.
  - constructor; [exact H|]. constructor. now rewrite E.
  - constructor; [exact H|]. constructor. now rewrite E.
  - apply Sorted_inv in H as [Hl Hh]. constructor; [now apply IH|].
    destruct l as [|y l]; simpl.
    + constructor. rewrite lex_cmp_antisym, E. discriminate.
    + destruct (lex_cmp (key r) (key y)).
      * constructor. rewrite lex_cmp_antisym, E. discriminate.
      * constructor. rewrite lex_cmp_antisym, E. discriminate.
      * inversion Hh; subst. now constructor.
Qed.

Lemma sort_by_sorted (key : row -> list cell) (l : list row) :
  Sorted (fun a b => lex_cmp (key a) (key b) <> Gt) (sort_by key l).
Proof. induction l as [|x l IH]; simpl; [constructor|]. now apply insert_by_sorted. Qed.

Lemma insert_by_stable (key : row -> list cell) (r : row) (l : list row) (k : list cell) :
  filter (fun x => if key_dec (key x) k then true else false) (insert_by key r l) =
  filter (fun x => if key_dec (key x) k then true else false) (r :: l).
Proof.
  induction l as [|x l IH]; simpl; [reflexivity|].
  destruct (lex_cmp (key r) (key x)) eqn:E; try reflexivity.
  simpl. rewrite IH. simpl.
  destruct (key_dec (key x) k) as [Ex|]; [|reflexivity].
  destruct (key_dec (key r) k) as [Er|]; [|reflexivity].
  rewrite Ex, Er, lex_cmp_refl in E. discriminate.
Qed.

Lemma sort_by_stable (key : row -> list cell) (l : list row) (k : list cell) :
  filter (fun x => if key_dec (key x) k then true else false) (sort_by key l) =
  filter (fun x => if key_dec (key x) k then true else false) l.
Proof.
  induction l as [|x l IH]; [reflexivity|]. simpl sort_by.
  rewrite insert_by_stable. simpl. now rewrite IH.
Qed.

Lemma combine_put_two (rs : list row) (nums : list (cell * cell)) :
  map (fun rv => fst rv ++ [snd rv])
    (combine (map (fun rv => fst rv ++ [snd rv]) (combine rs (map fst nums))) (map snd nums)) =
  map (fun rn => fst rn ++ [fst (snd rn); snd (snd rn)]) (combine rs nums).
Proof.
  revert nums. induction rs as [|r rs IH]; intros [|[a b] nums]; simpl; try reflexivity.
  rewrite IH, <- app_assoc. reflexivity.
Qed.

Lemma length_game_numbers (base : Z) (ks : list (list cell)) :
  List.length (game_numbers base ks) = List.length ks.
Proof.
  unfold game_numbers. rewrite length_map, length_combine.
  assert (H : forall seen, List.length (cumcounts seen ks) = List.length ks).
  { induction ks as [|k ks IH]; intros seen; simpl; [reflexivity|]. now rewrite IH. }
  rewrite H. apply Nat.min_id.
Qed.

(** The shape of the table [add_game_number] returns on a non-empty
    frame with the key columns and without the two number columns. *)
Lemma add_game_number_shape (coerce_date : cell -> cell) (games : table) (playoffs : bool) :
  rows games <> [] -> columns games <> [] ->
  In "GAME_DATE" (columns games) -> In "TEAM_ID" (columns games) ->
  In "SEASON_ID" (columns games) ->
  ~ In "GAME_NUMBER" (columns games) -> ~ In "GAME_NUMBER_REV" (columns games) ->
  let cols := columns games in
  let rs := sort_by (sort_key cols)
              (map (upd (index_of "GAME_DATE" cols) coerce_date) (rows games)) in
  let nums := game_numbers (if playoffs then 82 else 0)%Z (map (group_key cols) rs) in
  add_game_number coerce_date games playoffs =
  Some (mk_table (cols ++ ["GAME_NUMBER"; "GAME_NUMBER_REV"])
          (map (fun rn => fst rn ++ [fst (snd rn); snd (snd rn)]) (combine rs nums))).
Proof.
  intros Hr Hc Hd Ht Hs Hn1 Hn2. cbv zeta. unfold add_game_number.
  assert (Hlen : ((List.length (rows games) =? 0) || (List.length (columns games) =? 0))%nat = false)
    by (destruct (rows games), (columns games); simpl; congruence).
  rewrite Hlen. unfold set_column.
  rewrite (proj2 (mem_In _ _) Hd). cbn [columns rows].
  rewrite (proj2 (mem_In _ _) Ht), (proj2 (mem_In _ _) Hs). simpl andb.
  assert (E1 : mem "GAME_NUMBER" (columns games) = false).
  { destruct (mem "GAME_NUMBER" (columns games)) eqn:E;
      [apply mem_In in E; contradiction | reflexivity]. }
  assert (E2 : mem "GAME_NUMBER_REV" (columns games ++ ["GAME_NUMBER"]) = false).
  { destruct (mem "GAME_NUMBER_REV" (columns games ++ ["GAME_NUMBER"])) eqn:E; [|reflexivity].
    apply mem_In, in_app_or in E. destruct E as [E|[E|[]]]; [contradiction | discriminate]. }
  unfold put_column. cbn [columns rows]. rewrite E1. cbn [columns rows]. rewrite E2.
  cbn [columns rows]. rewrite <- app_assoc. simpl app.
  rewrite combine_put_two. reflexivity.
Qed.




(** [add_game_number] on a non-empty frame with [TEAM_ID], [SEASON_ID]
    and [GAME_DATE] (and no number columns yet) appends [GAME_NUMBER] and
    [GAME_NUMBER_REV] to each row; the rows are the input rows (with
    [GAME_DATE] coerced), reordered so that their
    [(TEAM_ID, SEASON_ID, GAME_DATE)] keys ascend, rows of equal key
    keeping their input order. *)
Theorem add_game_number_sorted_rows
    (coerce_date : cell -> cell) (games : table) (playoffs : bool) :
  rows games <> [] ->
  In "GAME_DATE" (columns games) -> In "TEAM_ID" (columns games) ->
  In "SEASON_ID" (columns games) ->
  ~ In "GAME_NUMBER" (columns games) -> ~ In "GAME_NUMBER_REV" (columns games) ->
  let cols := columns games in
  let coerced := map (upd (index_of "GAME_DATE" cols) coerce_date) (rows games) in
  exists rs nums,
    add_game_number coerce_date games playoffs =
      Some (mk_table (cols ++ ["GAME_NUMBER"; "GAME_NUMBER_REV"])
              (map (fun rn => fst rn ++ [fst (snd rn); snd (snd rn)]) (combine rs nums))) /\
    List.length nums = List.length rs /\
    Permutation rs coerced /\
    Sorted (fun a b => lex_cmp (sort_key cols a) (sort_key cols b) <> Gt) rs /\
    forall k, filter (fun r => if key_dec (sort_key cols r) k then true else false) rs =
              filter (fun r => if key_dec (sort_key cols r) k then true else false) coerced.
Proof.
  intros Hr Hd Ht Hs Hn1 Hn2. cbv zeta.
  assert (Hc : columns games <> []) by (intros E; rewrite E in Hd; destruct Hd).
  pose proof (add_game_number_shape coerce_date games playoffs Hr Hc Hd Ht Hs Hn1 Hn2) as Hsh.
  cbv zeta in Hsh. eexists. eexists. split; [exact Hsh|].
  split; [now rewrite length_game_numbers, length_map|].
  split; [apply sort_by_perm|]. split; [apply sort_by_sorted|].
  intros k. apply sort_by_stable.
Qed.

Lemma add_game_number_sorted_rows_witness :
  exists t, add_game_number (fun c => c)
    (mk_table ["TEAM_ID"; "SEASON_ID"; "GAME_DATE"]
       [[CNum 2; CStr "22025"; CDate 5]; [CNum 1; CStr "22025"; CDate 9];
        [CNum 1; CStr "22025"; CDate 3]]) false = Some t.
Proof.
  destruct (add_game_number_sorted_rows (fun c => c)
    (mk_table ["TEAM_ID"; "SEASON_ID"; "GAME_DATE"]
       [[CNum 2; CStr "22025"; CDate 5]; [CNum 1; CStr "22025"; CDate 9];
        [CNum 1; CStr "22025"; CDate 3]]) false) as [rs [nums [H _]]];
    simpl; try discriminate; try tauto; try (intuition discriminate).
  eexists. exact H.
Defined.



(** ** The written CSV *)

Lemma length_upd (j : nat) (f : cell -> cell) (r : row) : List.length (upd j f r) = List.length r.
Proof.
  revert j. induction r as [|x r IH]; intros j; [reflexivity|].
  destruct j; simpl; [reflexivity | now rewrite IH].
Qed.

Lemma at_col_upd_in (j : nat) (f : cell -> cell) (r : row) :
  j < List.length r -> at_col j (upd j f r) = f (at_col j r).
Proof.
  unfold at_col. revert j. induction r as [|x r IH]; intros j H; simpl in H; [lia|].
  destruct j; simpl; [reflexivity | apply IH; lia].
Qed.

Lemma for_columns_forall (P : row -> Prop) (cols : list string) sel step (rs : list row) :
  (forall j acc, Forall P acc -> Forall P (step j acc)) ->
  Forall P rs -> Forall P (for_columns cols sel step rs).
Proof.
  intros Hs. unfold for_columns. generalize (seq 0 (List.length cols)) as l.
  intros l. revert rs. induction l as [|k l IH]; intros rs H; simpl; [exact H|].
  apply IH. destruct (sel _); [apply Hs|]; exact H.
Qed.

Lemma Forall_map_upd (n j : nat) (f : cell -> cell) (rs : list row) :
  Forall (fun r => List.length r = n) rs ->
  Forall (fun r => List.length r = n) (map (upd j f) rs).
Proof.
  intros H. apply Forall_map. eapply Forall_impl; [|exact H].
  intros r Hr. now rewrite length_upd.
Qed.

Lemma gameid_to_str_lengths (show_date : Z -> string) (n : nat) (cols : list string) (rs : list row) :
  Forall (fun r => List.length r = n) rs ->
  Forall (fun r => List.length r = n) (gameid_to_str show_date cols rs).
Proof. apply for_columns_forall. intros j acc. apply Forall_map_upd. Qed.

Lemma parse_date_cols_lengths (parse_date : string -> option (option Z)) (n : nat)
    (cols : list string) (rs : list row) :
  Forall (fun r => List.length r = n) rs ->
  Forall (fun r => List.length r = n) (parse_date_cols parse_date cols rs).
Proof.
  apply for_columns_forall. intros j acc H. unfold to_datetime_col.
  destruct (forallb _ acc); [now apply Forall_map_upd | exact H].
Qed.

Lemma normalize_key_name_shape (t : table) :
  List.length (columns (normalize_key_name t)) = List.length (columns t) /\
  rows (normalize_key_name t) = rows t.
Proof.
  unfold normalize_key_name.
  destruct (mem "gameId" (columns t)); [split; reflexivity|].
  destruct (mem "GAME_ID" (columns t));
    [|destruct (mem "game_id" (columns t)); [|destruct (mem "Game_ID" (columns t))]];
    simpl; try (split; reflexivity); (split; [apply length_map | reflexivity]).
Qed.

Lemma read_existing_csv_wf (show_date : Z -> string) (existing : option table) (t : table) :
  (forall df, existing = Some df -> well_formed df) ->
  read_existing_csv show_date existing = Some t ->
  well_formed t /\ In "gameId" (columns t).
Proof.
  intros Hwf Hr. unfold read_existing_csv in Hr. destruct existing as [df|].
  - destruct (mem "gameId" (columns (normalize_key_name df))) eqn:Hm; [|discriminate].
    injection Hr as <-. split; [|now apply mem_In].
    unfold well_formed. cbn [columns rows]. apply gameid_to_str_lengths.
    destruct (normalize_key_name_shape df) as [Hc Hrs]. rewrite Hrs, Hc.
    exact (Hwf df eq_refl).
  - injection Hr as <-. split; [constructor | now left].
Qed.

Lemma concat_tables_wf (a b : table) :
  well_formed a -> well_formed (concat_tables a b) /\
  (forall c, In c (columns a) -> In c (columns (concat_tables a b))).
Proof.
  intros Ha. unfold concat_tables, well_formed in *. cbv zeta. cbn [columns rows]. split.
  - apply Forall_app. split.
    + apply Forall_map. eapply Forall_impl; [|exact Ha]. intros r Hr.
      cbv beta in Hr. rewrite !length_app, repeat_length, Hr. reflexivity.
    + apply Forall_map, Forall_forall. intros r _. apply length_map.
  - intros c Hc. apply in_or_app. now left.
Qed.

Lemma accumulated_wf (p : table) (evs : list event) :
  well_formed p -> In "gameId" (columns p) ->
  well_formed (accumulated p evs) /\ In "gameId" (columns (accumulated p evs)).
Proof.
  unfold accumulated. revert p. induction evs as [|e evs IH]; intros p Hw Hc; simpl; [tauto|].
  apply IH; destruct e as [g [df|]| | |]; auto;
    destruct (concat_tables_wf p df Hw) as [H1 H2]; auto.
Qed.

(** Every CSV that [get_historical_boxscores] writes (at a checkpoint,
    after a failure, or at the end) has a [gameId] column and one cell per
    column in every row, and every cell under a [gameId] column is text,
    provided the output file read at the start (if any) has one cell per
    column in every row. *)
Theorem written_csv_game_ids_are_text
    (show_date : Z -> string) (parse_date : string -> option (option Z))
    (endpoint : string -> option (list table)) (df_index : nat)
    (game_ids : list string) (existing : option table) (marker : option string)
    (tb : Q) (evs : list event) :
  (forall df, existing = Some df -> well_formed df) ->
  run show_date parse_date endpoint df_index game_ids existing marker tb = Some evs ->
  forall t, In (EWriteCsv t) evs ->
    In "gameId" (columns t) /\ well_formed t /\
    forall j r, nth_error (columns t) j = Some "gameId"%string -> In r (rows t) ->
      exists s, at_col j r = CStr s.
Proof.
  intros Hwf Hrun t Hin.
  destruct (read_existing_csv show_date existing) as [all_data|] eqn:Hr;
    [|unfold run in Hrun; rewrite Hr in Hrun; discriminate].
  destruct (read_existing_csv_wf show_date existing all_data Hwf Hr) as [Hw0 Hc0].
  destruct (in_split _ _ Hin) as [pre [post E]].
  rewrite (persist_is_clean_accumulation show_date parse_date endpoint df_index
             game_ids existing marker tb all_data evs Hr Hrun pre t post E).
  destruct (accumulated_wf all_data pre Hw0 Hc0) as [Hw Hc].
  set (A := accumulated all_data pre) in *.
  unfold clean, clean_for_tableau, normalize. cbn [columns rows].
  assert (Hlen : Forall (fun r => List.length r = List.length (columns A))
                   (drop_duplicates (parse_date_cols parse_date (columns A)
                      (gameid_to_str show_date (columns A) (rows A))))).
  { apply Forall_forall. intros r Hr'. apply (proj1 (drop_duplicates_in _ _)) in Hr'.
    revert r Hr'. apply Forall_forall.
    apply parse_date_cols_lengths, gameid_to_str_lengths. exact Hw. }
  split; [exact Hc|]. split; [exact Hlen|].
  intros j r Hj Hr'.
  assert (Hg : gid_fixed show_date (columns A)
                 (drop_duplicates (parse_date_cols parse_date (columns A)
                    (gameid_to_str show_date (columns A) (rows A))))).
  { eapply gid_fixed_same_members; [intros r0 H0; apply (proj1 (drop_duplicates_in _ _)); exact H0|].
    apply parse_date_cols_settled. apply gameid_to_str_fixed. }
  assert (Hjn : String.eqb (nth j (columns A) ""%string) "gameId" = true).
  { rewrite (nth_error_nth _ _ _ Hj). apply String.eqb_refl. }
  pose proof (Hg j Hjn r Hr') as Hfix.
  assert (Hjl : j < List.length r).
  { rewrite (proj1 (Forall_forall _ _) Hlen r Hr'). apply nth_error_Some. congruence. }
  pose proof (at_col_upd_in j (astype_str show_date) r Hjl) as Ha. rewrite Hfix in Ha.
  destruct (at_col j r) as [s0|z|d|]; simpl in Ha; try discriminate; now exists s0.
Qed.

Lemma written_csv_game_ids_are_text_witness :
  exists evs, run Z_to_string (fun _ => None) (fun g => Some [mk_table ["gameId"] [[CStr g]]]) 0
    ["g1"] None None 1 = Some evs /\ In "gameId" (columns (mk_table ["gameId"] [[CStr "g1"]])).
Proof.
  set (ep := fun g : string => Some [mk_table ["gameId"] [[CStr g]]]).
  destruct (run Z_to_string (fun _ => None) ep 0 ["g1"] None None 1) as [evs|] eqn:E;
    [|vm_compute in E; discriminate].
  exists evs. split; [reflexivity|].
  assert (Hin : In (EWriteCsv (mk_table ["gameId"] [[CStr "g1"]])) evs)
    by (vm_compute in E; injection E as <-; simpl; tauto).
  exact (proj1 (written_csv_game_ids_are_text Z_to_string (fun _ => None) ep 0 ["g1"] None None 1
                  evs (fun df H => ltac:(discriminate H)) E _ Hin)).
Defined.

(** ** Single-season tokens *)








